(** * Fisher-Kolmogorov 3D solver: assembly, Newton driver and time march

    A shallow embedding of [FisherKolmogorov3D.cpp].  The C++ class keeps its
    unknowns in distributed vectors of [double]; here a vector is a list of
    scalars, a matrix a list of rows, and the scalar type is an interface
    ([Num]) with two instances: binary64 floats, on which the model runs, and
    the real numbers, on which the statements about assembled values and
    about the time march are proved (exact arithmetic).  The statements that
    use no law of arithmetic are proved for every instance.  What deal.II
    and Trilinos provide (shape functions, quadrature, the CG solver, norms,
    interpolation) enters as data or as a record of capabilities; one MPI
    process is modelled. *)

From Stdlib Require Import String.
From Stdlib Require Import List Arith ZArith Lia Bool.
From Stdlib Require Import PrimFloat.
From Stdlib Require Import Reals Lra.
From Stdlib Require Import Permutation.
Import ListNotations.

Set Implicit Arguments.

(** ** Scalars *)

(** The operations the solver performs on [double]. *)
Class Num (F : Type) : Type := {
  Fzero : F;
  Fone : F;
  Fadd : F -> F -> F;
  Fsub : F -> F -> F;
  Fmul : F -> F -> F;
  Fdiv : F -> F -> F;
  Fltb : F -> F -> bool
}.

Declare Scope num_scope.
Delimit Scope num_scope with num.
Infix "+" := Fadd : num_scope.
Infix "-" := Fsub : num_scope.
Infix "*" := Fmul : num_scope.
Infix "/" := Fdiv : num_scope.
Infix "<?" := Fltb : num_scope.

(** ** Loops and indexed containers *)

(** [for (unsigned k = 0; k < n; ++k) body(k)] on a state [S]. *)
Definition for_loop {S : Type} (n : nat) (body : nat -> S -> S) (s : S) : S :=
  fold_left (fun acc k => body k acc) (seq 0 n) s.

(** [v[k] = f(v[k])]; the C++ containers are never indexed out of range by
    the solver, and the model leaves the container alone there. *)
Fixpoint update_at {A : Type} (f : A -> A) (k : nat) (v : list A) : list A :=
  match v, k with
  | [], _ => []
  | x :: v', O => f x :: v'
  | x :: v', S k' => x :: update_at f k' v'
  end.

(** What can go wrong, and how a run ends. *)
Inductive Exn : Type :=
| NoConvergence.

Inductive Outcome (A : Type) : Type :=
| Done (a : A)
| Throw (e : Exn)
| OutOfFuel.

Arguments Done {A} a.
Arguments Throw {A} e.
Arguments OutOfFuel {A}.

Definition bind {A B : Type} (m : Outcome A) (k : A -> Outcome B) : Outcome B :=
  match m with
  | Done a => k a
  | Throw e => Throw e
  | OutOfFuel => OutOfFuel
  end.

(** [while (cond) body], cut off after [fuel] tests of the condition. *)
Fixpoint while_loop {S : Type} (fuel : nat) (cond : S -> bool)
  (body : S -> Outcome S) (s : S) : Outcome S :=
  match fuel with
  | O => OutOfFuel
  | S fuel' =>
      if cond s then bind (body s) (while_loop fuel' cond body) else Done s
  end.

Section Model.

Context {F : Type} {num : Num F}.
Local Open Scope num_scope.

Definition Ftwo : F := Fone + Fone.
Definition Fhalf : F := Fone / Ftwo.

(** *** Tensors of rank 1 and 2 in dimension 3 *)

Record Tensor1 : Type := mkTensor1 { tx : F; ty : F; tz : F }.
Record Tensor2 : Type := mkTensor2 { row0 : Tensor1; row1 : Tensor1; row2 : Tensor1 }.

Definition Point : Type := Tensor1.

(** [Tensor<1,3> * Tensor<1,3>]: the scalar product. *)
Definition dot (a b : Tensor1) : F :=
  tx a * tx b + ty a * ty b + tz a * tz b.

(** [Tensor<2,3> * Tensor<1,3>]: contraction over the last index. *)
Definition contract (d : Tensor2) (g : Tensor1) : Tensor1 :=
  mkTensor1 (dot (row0 d) g) (dot (row1 d) g) (dot (row2 d) g).

Definition tensor_symmetric (d : Tensor2) : Prop :=
  ty (row0 d) = tx (row1 d) /\ tz (row0 d) = tx (row2 d) /\ tz (row1 d) = ty (row2 d).

Definition tzero : Tensor1 := mkTensor1 Fzero Fzero Fzero.

Definition tadd (a b : Tensor1) : Tensor1 :=
  mkTensor1 (tx a + tx b) (ty a + ty b) (tz a + tz b).

Definition tscale (c : F) (a : Tensor1) : Tensor1 :=
  mkTensor1 (c * tx a) (c * ty a) (c * tz a).

(** *** Vectors and matrices *)

Definition Vector : Type := list F.
Definition Matrix : Type := list (list F).

Definition vget (v : Vector) (k : nat) : F := nth k v Fzero.
Definition mget (m : Matrix) (i j : nat) : F := nth j (nth i m []) Fzero.

Definition vadd_at (k : nat) (x : F) (v : Vector) : Vector :=
  update_at (fun y => y + x) k v.
Definition vsub_at (k : nat) (x : F) (v : Vector) : Vector :=
  update_at (fun y => y - x) k v.
Definition madd_at (i j : nat) (x : F) (m : Matrix) : Matrix :=
  update_at (vadd_at j x) i m.
Definition msub_at (i j : nat) (x : F) (m : Matrix) : Matrix :=
  update_at (vsub_at j x) i m.

(** [v = 0.0] and [m = 0.0]: every stored entry becomes zero, the shape stays. *)
Definition vzero (v : Vector) : Vector := map (fun _ => Fzero) v.
Definition mzero (m : Matrix) : Matrix := map vzero m.

(** [u += v]. *)
Fixpoint vec_add (u v : Vector) : Vector :=
  match u, v with
  | x :: u', y :: v' => (x + y) :: vec_add u' v'
  | _, _ => u
  end.

(** *** The discretization context *)

(** What [FEValues] exposes after [reinit(cell)], with the cell's ownership
    flag and its local-to-global DoF map. *)
Record Cell : Type := mkCell {
  is_locally_owned : bool;
  get_dof_indices : list nat;
  shape_value : nat -> nat -> F;
  shape_grad : nat -> nat -> Tensor1;
  JxW : nat -> F;
  quadrature_point : nat -> Point
}.

(** [fe], [quadrature] and [dof_handler] once [setup] has run. *)
Record Discretization : Type := mkDiscretization {
  dofs_per_cell : nat;
  n_q : nat;
  active_cell_iterators : list Cell;
  support_points : list Point
}.

(** The coefficient providers [d], [forcing_term] (a function of the time
    stored in the provider and of the point) and [u_0]. *)
Record Coefficients : Type := mkCoefficients {
  d_value : Point -> Tensor2;
  forcing_term_value : F -> Point -> F;
  u_0_value : Point -> F
}.

(** The run's constants. *)
Record Parameters : Type := mkParameters {
  alpha : F;
  T : F;
  deltat : F;
  max_newton_iterations : nat;
  newton_tolerance : F;
  max_cg_iterations : nat;
  cg_tolerance_factor : F
}.

(** The linear algebra the solver borrows: the Euclidean norm of a vector
    and the preconditioned CG solve, which takes the iteration cap, the
    absolute tolerance, the matrix, the initial guess and the right-hand
    side, and either returns the solution with the number of iterations used
    or fails to converge. *)
Record LinearAlgebra : Type := mkLinearAlgebra {
  l2_norm : Vector -> F;
  cg_solve : nat -> F -> Matrix -> Vector -> Vector -> option (Vector * nat)
}.

(** What the run shows to the outside: calls on the forcing provider, console
    lines and output files. *)
Inductive Event : Type :=
| EvSetTime (t : F)
| EvNewtonIteration (n_iter : nat) (residual_norm : F)
| EvBelowTolerance
| EvCGIterations (last_step : nat)
| EvInitialCondition
| EvTimeStep (time_step : nat) (t : F)
| EvOutput (time_step : nat) (u : Vector).

(** The mutable members of the class; [trace] lists the events, latest first. *)
Record FisherKolmogorov3D : Type := mkFK {
  time : F;
  forcing_term_time : F;
  jacobian_matrix : Matrix;
  residual_vector : Vector;
  solution_owned : Vector;
  delta_owned : Vector;
  solution : Vector;
  solution_old : Vector;
  trace : list Event
}.

Variable disc : Discretization.
Variable coef : Coefficients.
Variable prm : Parameters.
Variable la : LinearAlgebra.

(** *** assemble_system *)

(** [fe_values.get_function_values(u, out)]: [out[q] = sum_k u[dof k] * phi_k(q)]. *)
Definition get_function_values (c : Cell) (u : Vector) (q : nat) : F :=
  for_loop (dofs_per_cell disc)
    (fun k acc => acc + vget u (nth k (get_dof_indices c) O) * shape_value c k q)
    Fzero.

(** [fe_values.get_function_gradients(u, out)]. *)
Definition get_function_gradients (c : Cell) (u : Vector) (q : nat) : Tensor1 :=
  for_loop (dofs_per_cell disc)
    (fun k acc =>
       tadd acc (tscale (vget u (nth k (get_dof_indices c) O)) (shape_grad c k q)))
    tzero.

(** The three updates of [cell_matrix(i, j)] at quadrature node [q]. *)
Definition matrix_entry_update (c : Cell) (solution_loc : F) (d_loc : Tensor2)
  (q i j : nat) (cell_matrix : Matrix) : Matrix :=
  let cell_matrix :=
    madd_at i j (shape_value c i q * shape_value c j q / deltat prm * JxW c q)
      cell_matrix in
  let cell_matrix :=
    madd_at i j (dot (contract d_loc (shape_grad c i q)) (shape_grad c j q) * JxW c q)
      cell_matrix in
  msub_at i j
    (alpha prm * shape_value c i q * (Fone - Ftwo * solution_loc) *
       shape_value c j q * JxW c q)
    cell_matrix.

(** The four updates of [cell_residual(i)] at quadrature node [q]. *)
Definition residual_entry_update (c : Cell) (solution_loc : F)
  (solution_gradient_loc : Tensor1) (solution_old_loc : F) (d_loc : Tensor2)
  (f_loc : F) (q i : nat) (cell_residual : Vector) : Vector :=
  let cell_residual :=
    vsub_at i ((solution_loc - solution_old_loc) / deltat prm *
                 shape_value c i q * JxW c q) cell_residual in
  let cell_residual :=
    vsub_at i (dot (contract d_loc (shape_grad c i q)) solution_gradient_loc *
                 JxW c q) cell_residual in
  let cell_residual :=
    vadd_at i (alpha prm * solution_loc * (Fone - solution_loc) *
                 shape_value c i q * JxW c q) cell_residual in
  vadd_at i (f_loc * shape_value c i q * JxW c q) cell_residual.

(** The body of the loop over quadrature nodes. *)
Definition quadrature_node (c : Cell) (f_time : F) (u u_old : Vector) (q : nat)
  (loc : Matrix * Vector) : Matrix * Vector :=
  let d_loc := d_value coef (quadrature_point c q) in
  let f_loc := forcing_term_value coef f_time (quadrature_point c q) in
  let solution_loc := get_function_values c u q in
  let solution_gradient_loc := get_function_gradients c u q in
  let solution_old_loc := get_function_values c u_old q in
  for_loop (dofs_per_cell disc)
    (fun i loc =>
       let cell_matrix :=
         for_loop (dofs_per_cell disc)
           (fun j m => matrix_entry_update c solution_loc d_loc q i j m) (fst loc) in
       (cell_matrix,
        residual_entry_update c solution_loc solution_gradient_loc
          solution_old_loc d_loc f_loc q i (snd loc)))
    loc.

(** The element block and element residual of one cell, from zeroed scratch. *)
Definition assemble_cell (c : Cell) (f_time : F) (u u_old : Vector) : Matrix * Vector :=
  let cell_matrix := repeat (repeat Fzero (dofs_per_cell disc)) (dofs_per_cell disc) in
  let cell_residual := repeat Fzero (dofs_per_cell disc) in
  for_loop (n_q disc) (quadrature_node c f_time u u_old) (cell_matrix, cell_residual).

Definition cell_matrix_of (c : Cell) (f_time : F) (u u_old : Vector) : Matrix :=
  fst (assemble_cell c f_time u u_old).
Definition cell_residual_of (c : Cell) (f_time : F) (u u_old : Vector) : Vector :=
  snd (assemble_cell c f_time u u_old).

(** What one quadrature node does to the single entry [cell_matrix(i, j)],
    and to the single entry [cell_residual(i)], as maps on the entry. *)
Definition matrix_entry_step (c : Cell) (u : Vector) (q i j : nat) (acc : F) : F :=
  acc
  + shape_value c i q * shape_value c j q / deltat prm * JxW c q
  + dot (contract (d_value coef (quadrature_point c q)) (shape_grad c i q))
      (shape_grad c j q) * JxW c q
  - alpha prm * shape_value c i q * (Fone - Ftwo * get_function_values c u q) *
      shape_value c j q * JxW c q.

Definition residual_entry_step (c : Cell) (f_time : F) (u u_old : Vector)
  (q i : nat) (acc : F) : F :=
  acc
  - (get_function_values c u q - get_function_values c u_old q) / deltat prm *
      shape_value c i q * JxW c q
  - dot (contract (d_value coef (quadrature_point c q)) (shape_grad c i q))
      (get_function_gradients c u q) * JxW c q
  + alpha prm * get_function_values c u q * (Fone - get_function_values c u q) *
      shape_value c i q * JxW c q
  + forcing_term_value coef f_time (quadrature_point c q) * shape_value c i q *
      JxW c q.

(** The symmetry of the element block of a cell, as a statement about
    whatever arithmetic the block is computed in. *)
Definition element_block_symmetric (c : Cell) : Prop :=
  (forall q, (q < n_q disc)%nat ->
             tensor_symmetric (d_value coef (quadrature_point c q))) ->
  forall f_time u u_old i j,
    (i < dofs_per_cell disc)%nat -> (j < dofs_per_cell disc)%nat ->
    mget (cell_matrix_of c f_time u u_old) i j =
    mget (cell_matrix_of c f_time u u_old) j i.

(** Shapes: a vector of [n] entries, a matrix of [n] rows of [n] entries. *)
Definition mshape (n : nat) (m : Matrix) : Prop :=
  length m = n /\ Forall (fun row => length row = n) m.

Definition loc_shape (n : nat) (loc : Matrix * Vector) : Prop :=
  mshape n (fst loc) /\ length (snd loc) = n.

(** [jacobian_matrix.add(dof_indices, cell_matrix)]. *)
Definition matrix_add (dof_indices : list nat) (cell_matrix : Matrix) (m : Matrix) : Matrix :=
  for_loop (length dof_indices)
    (fun i m =>
       for_loop (length dof_indices)
         (fun j m => madd_at (nth i dof_indices O) (nth j dof_indices O)
                       (mget cell_matrix i j) m) m) m.

(** [residual_vector.add(dof_indices, cell_residual)]. *)
Definition vector_add (dof_indices : list nat) (cell_residual : Vector) (v : Vector) : Vector :=
  for_loop (length dof_indices)
    (fun i v => vadd_at (nth i dof_indices O) (vget cell_residual i) v) v.

(** The body of the loop over cells. *)
Definition assemble_on_cell (f_time : F) (u u_old : Vector) (glob : Matrix * Vector)
  (c : Cell) : Matrix * Vector :=
  if is_locally_owned c then
    let loc := assemble_cell c f_time u u_old in
    (matrix_add (get_dof_indices c) (fst loc) (fst glob),
     vector_add (get_dof_indices c) (snd loc) (snd glob))
  else glob.

(** On one process [compress(VectorOperation::add)] has nothing to merge. *)
Definition compress {A : Type} (x : A) : A := x.

(** Member updates. *)
Definition set_time (t : F) (s : FisherKolmogorov3D) : FisherKolmogorov3D :=
  mkFK t (forcing_term_time s) (jacobian_matrix s) (residual_vector s)
    (solution_owned s) (delta_owned s) (solution s) (solution_old s) (trace s).
Definition set_system (m : Matrix) (v : Vector) (s : FisherKolmogorov3D) : FisherKolmogorov3D :=
  mkFK (time s) (forcing_term_time s) m v
    (solution_owned s) (delta_owned s) (solution s) (solution_old s) (trace s).
Definition set_solution_owned (v : Vector) (s : FisherKolmogorov3D) : FisherKolmogorov3D :=
  mkFK (time s) (forcing_term_time s) (jacobian_matrix s) (residual_vector s)
    v (delta_owned s) (solution s) (solution_old s) (trace s).
Definition set_delta_owned (v : Vector) (s : FisherKolmogorov3D) : FisherKolmogorov3D :=
  mkFK (time s) (forcing_term_time s) (jacobian_matrix s) (residual_vector s)
    (solution_owned s) v (solution s) (solution_old s) (trace s).
Definition set_solution (v : Vector) (s : FisherKolmogorov3D) : FisherKolmogorov3D :=
  mkFK (time s) (forcing_term_time s) (jacobian_matrix s) (residual_vector s)
    (solution_owned s) (delta_owned s) v (solution_old s) (trace s).
Definition set_solution_old (v : Vector) (s : FisherKolmogorov3D) : FisherKolmogorov3D :=
  mkFK (time s) (forcing_term_time s) (jacobian_matrix s) (residual_vector s)
    (solution_owned s) (delta_owned s) (solution s) v (trace s).
Definition emit (e : Event) (s : FisherKolmogorov3D) : FisherKolmogorov3D :=
  mkFK (time s) (forcing_term_time s) (jacobian_matrix s) (residual_vector s)
    (solution_owned s) (delta_owned s) (solution s) (solution_old s) (e :: trace s).

(** [forcing_term.set_time(t)]. *)
Definition forcing_term_set_time (t : F) (s : FisherKolmogorov3D) : FisherKolmogorov3D :=
  mkFK (time s) t (jacobian_matrix s) (residual_vector s)
    (solution_owned s) (delta_owned s) (solution s) (solution_old s)
    (EvSetTime t :: trace s).

(** The loop over the active cells, from given global structures. *)
Definition assemble_cells (f_time : F) (u u_old : Vector) (glob : Matrix * Vector)
  : Matrix * Vector :=
  fold_left (assemble_on_cell f_time u u_old) (active_cell_iterators disc) glob.

Definition assemble_system (s : FisherKolmogorov3D) : FisherKolmogorov3D :=
  let s := set_system (mzero (jacobian_matrix s)) (vzero (residual_vector s)) s in
  let s := forcing_term_set_time (time s) s in
  let glob :=
    assemble_cells (forcing_term_time s) (solution s) (solution_old s)
      (jacobian_matrix s, residual_vector s) in
  set_system (compress (fst glob)) (compress (snd glob)) s.

(** *** solve_linear_system *)

Definition solve_linear_system (s : FisherKolmogorov3D) : Outcome FisherKolmogorov3D :=
  let tolerance := cg_tolerance_factor prm * l2_norm la (residual_vector s) in
  match cg_solve la (max_cg_iterations prm) tolerance (jacobian_matrix s)
          (delta_owned s) (residual_vector s) with
  | Some (x, last_step) =>
      Done (emit (EvCGIterations last_step) (set_delta_owned x s))
  | None => Throw NoConvergence
  end.

(** *** solve_newton *)

(** The object together with the locals of [solve_newton]. *)
Record NewtonLoop : Type := mkNewtonLoop {
  newton_self : FisherKolmogorov3D;
  n_iter : nat;
  residual_norm : F
}.

Definition newton_cond (w : NewtonLoop) : bool :=
  (n_iter w <? max_newton_iterations prm)%nat &&
  (newton_tolerance prm <? residual_norm w).

(** [solution = solution_owned]: the ghosted view is refreshed from the
    owned entries; on one process every entry is owned. *)
Definition ghost_refresh (s : FisherKolmogorov3D) : FisherKolmogorov3D :=
  set_solution (solution_owned s) s.

(** The branch taken when the residual is above the tolerance. *)
Definition newton_update (s : FisherKolmogorov3D) : Outcome FisherKolmogorov3D :=
  bind (solve_linear_system s) (fun s =>
  let s := set_solution_owned (vec_add (solution_owned s) (delta_owned s)) s in
  Done (ghost_refresh s)).

Definition newton_body (w : NewtonLoop) : Outcome NewtonLoop :=
  let s := assemble_system (newton_self w) in
  let rn := l2_norm la (residual_vector s) in
  let s := emit (EvNewtonIteration (n_iter w) rn) s in
  bind (if newton_tolerance prm <? rn
        then newton_update s
        else Done (emit EvBelowTolerance s))
       (fun s => Done (mkNewtonLoop s (S (n_iter w)) rn)).

Definition newton_init (s : FisherKolmogorov3D) : NewtonLoop :=
  mkNewtonLoop s O (newton_tolerance prm + Fone).

(** The loop of [solve_newton]; every pass increments [n_iter], so
    [max_newton_iterations + 1] tests of the condition always suffice. *)
Definition newton_iterations (s : FisherKolmogorov3D) : Outcome NewtonLoop :=
  while_loop (S (max_newton_iterations prm)) newton_cond newton_body (newton_init s).

Definition solve_newton (s : FisherKolmogorov3D) : Outcome FisherKolmogorov3D :=
  bind (newton_iterations s) (fun w => Done (newton_self w)).

(** *** output and solve *)

Definition output (time_step : nat) (s : FisherKolmogorov3D) : FisherKolmogorov3D :=
  emit (EvOutput time_step (solution s)) s.

(** [VectorTools::interpolate(dof_handler, u_0, solution_owned)]. *)
Definition interpolate (u0 : Point -> F) : Vector := map u0 (support_points disc).

Record TimeLoop : Type := mkTimeLoop {
  time_self : FisherKolmogorov3D;
  time_step : nat
}.

Definition time_cond (w : TimeLoop) : bool :=
  time (time_self w) <? T prm - Fhalf * deltat prm.

(** The statements of the time loop that precede [solve_newton]. *)
Definition begin_time_step (w : TimeLoop) : TimeLoop :=
  let s := time_self w in
  let s := set_time (time s + deltat prm) s in
  let n := S (time_step w) in
  let s := set_solution_old (solution s) s in
  mkTimeLoop (emit (EvTimeStep n (time s)) s) n.

Definition time_body (w : TimeLoop) : Outcome TimeLoop :=
  let w := begin_time_step w in
  bind (solve_newton (time_self w)) (fun s =>
  Done (mkTimeLoop (output (time_step w) s) (time_step w))).

(** [solve] up to the time loop. *)
Definition apply_initial_condition (s : FisherKolmogorov3D) : FisherKolmogorov3D :=
  let s := set_time Fzero s in
  let s := emit EvInitialCondition s in
  let s := set_solution_owned (interpolate (u_0_value coef)) s in
  let s := ghost_refresh s in
  output 0 s.

Definition time_loop (fuel : nat) (w : TimeLoop) : Outcome TimeLoop :=
  while_loop fuel time_cond time_body w.

Definition solve (fuel : nat) (s : FisherKolmogorov3D) : Outcome FisherKolmogorov3D :=
  let s := apply_initial_condition s in
  bind (time_loop fuel (mkTimeLoop s O)) (fun w => Done (time_self w)).

(** The states the Newton loop passes through: [newton_reaches w w'] when
    [w'] is [w] after some number of completed passes. *)
Inductive newton_reaches : NewtonLoop -> NewtonLoop -> Prop :=
| newton_reaches_refl (w : NewtonLoop) : newton_reaches w w
| newton_reaches_step (w w1 w' : NewtonLoop) :
    newton_cond w = true -> newton_body w = Done w1 ->
    newton_reaches w1 w' -> newton_reaches w w'.

(** An event that, if it is a call of [forcing_term.set_time], passes [t0]. *)
Definition sets_time_to (t0 : F) (e : Event) : Prop :=
  match e with
  | EvSetTime t => t = t0
  | _ => True
  end.

(** The members other than [solution_owned], [solution], [delta_owned], the
    Jacobian and the residual vector keep their values from [s] to [s']. *)
Definition other_members_unchanged (s s' : FisherKolmogorov3D) : Prop :=
  time s' = time s /\
  forcing_term_time s' = forcing_term_time s /\
  solution_old s' = solution_old s.

(** The reading of the frame condition on [solve_newton] under which nothing
    but the five listed members is ever written. *)
Definition newton_writes_only_listed_members : Prop :=
  forall s s', solve_newton s = Done s' -> other_members_unchanged s s'.

(** The CG solver meets its tolerance on every system it is handed. *)
Definition cg_always_converges : Prop :=
  forall max_iter tol m x0 b, cg_solve la max_iter tol m x0 b <> None.

(** *** set_solver_parameters *)

Definition set_solver_parameters (max_newton_iter : nat) (newton_tol : F)
  (max_cg_iter : nat) (cg_tol_factor : F) (p : Parameters) : Parameters :=
  mkParameters (alpha p) (T p) (deltat p) max_newton_iter newton_tol max_cg_iter
    cg_tol_factor.

(** *** Vocabulary for the properties of the assembly and of the drivers *)

(** The same finite element and quadrature over another list of cells. *)
Definition with_cells (cells : list Cell) : Discretization :=
  mkDiscretization (dofs_per_cell disc) (n_q disc) cells (support_points disc).

Definition owned_cells : list Cell :=
  filter is_locally_owned (active_cell_iterators disc).

(** Some locally owned cell has both [a] and [b] among its DoF indices. *)
Definition couples (a b : nat) : Prop :=
  exists c, In c (active_cell_iterators disc) /\ is_locally_owned c = true /\
            In a (get_dof_indices c) /\ In b (get_dof_indices c).

(** Readings of a trace: the Newton reports, the linear solves, the time
    steps of the output files and of the headers, latest first. *)
Definition is_newton_report (e : Event) : bool :=
  match e with EvNewtonIteration _ _ => true | _ => false end.

Definition is_cg_solve (e : Event) : bool :=
  match e with EvCGIterations _ => true | _ => false end.

Definition newton_reports (evs : list Event) : nat :=
  length (filter is_newton_report evs).

Definition cg_solves (evs : list Event) : nat :=
  length (filter is_cg_solve evs).

Definition output_steps (evs : list Event) : list nat :=
  flat_map (fun e => match e with EvOutput n _ => [n] | _ => [] end) evs.

Definition header_steps (evs : list Event) : list nat :=
  flat_map (fun e => match e with EvTimeStep n _ => [n] | _ => [] end) evs.

(** The events a Newton solve can log. *)
Definition newton_event (e : Event) : Prop :=
  match e with
  | EvSetTime _ | EvNewtonIteration _ _ | EvBelowTolerance | EvCGIterations _ => True
  | _ => False
  end.

(** After a pass, the norm the loop holds is the norm of the stored residual,
    and when it is not above the tolerance both global structures are those
    of the iterate the object holds. *)
Definition newton_consistent (w : NewtonLoop) : Prop :=
  residual_norm w = l2_norm la (residual_vector (newton_self w)) /\
  ((newton_tolerance prm <? residual_norm w) = false ->
   residual_vector (newton_self w) =
     residual_vector (assemble_system (newton_self w)) /\
   jacobian_matrix (newton_self w) =
     jacobian_matrix (assemble_system (newton_self w))).

(** Whether the linear solve of the Newton pass that starts at [w] fails:
    the residual assembled there is above the tolerance and the solver does
    not converge on it. *)
Definition cg_fails_at (w : NewtonLoop) : Prop :=
  let s := assemble_system (newton_self w) in
  (newton_tolerance prm <? l2_norm la (residual_vector s)) = true /\
  cg_solve la (max_cg_iterations prm)
    (cg_tolerance_factor prm * l2_norm la (residual_vector s))
    (jacobian_matrix s) (delta_owned s) (residual_vector s) = None.


End Model.

Arguments Tensor1 F : clear implicits.
Arguments Tensor2 F : clear implicits.
Arguments Point F : clear implicits.
Arguments Vector F : clear implicits.
Arguments Matrix F : clear implicits.
Arguments Cell F : clear implicits.
Arguments Discretization F : clear implicits.
Arguments Coefficients F : clear implicits.
Arguments Parameters F : clear implicits.
Arguments LinearAlgebra F : clear implicits.
Arguments Event F : clear implicits.
Arguments FisherKolmogorov3D F : clear implicits.
Arguments NewtonLoop F : clear implicits.
Arguments TimeLoop F : clear implicits.
Arguments EvBelowTolerance {F}.
Arguments EvInitialCondition {F}.
Arguments EvCGIterations {F} last_step.

(** ** Two scalar types *)

(** Exact arithmetic: the real numbers. *)
#[export] Instance Num_R : Num R := {
  Fzero := 0%R;
  Fone := 1%R;
  Fadd := Rplus;
  Fsub := Rminus;
  Fmul := Rmult;
  Fdiv := Rdiv;
  Fltb := fun x y => if Rlt_dec x y then true else false
}.

(** The Euclidean norm on real vectors. *)
Definition sum_squares (v : list R) : R :=
  fold_right (fun x acc => (x * x + acc)%R) 0%R v.

Definition l2_norm_R (v : list R) : R := sqrt (sum_squares v).

(** Real linear algebra around any CG solver. *)
Definition LinearAlgebra_R
  (cg : nat -> R -> list (list R) -> list R -> list R -> option (list R * nat))
  : LinearAlgebra R :=
  mkLinearAlgebra l2_norm_R cg.

(** Binary64, the arithmetic of [double]. *)
#[export] Instance Num_float : Num PrimFloat.float := {
  Fzero := PrimFloat.zero;
  Fone := PrimFloat.one;
  Fadd := PrimFloat.add;
  Fsub := PrimFloat.sub;
  Fmul := PrimFloat.mul;
  Fdiv := PrimFloat.div;
  Fltb := PrimFloat.ltb
}.

Definition l2_norm_float (v : list PrimFloat.float) : PrimFloat.float :=
  PrimFloat.sqrt (fold_left (fun acc x => PrimFloat.add acc (PrimFloat.mul x x)) v PrimFloat.zero).

(** ** A small configuration to run the model on *)

Section Sample.

Context {F : Type} {num : Num F}.
Local Open Scope num_scope.

Definition Ffour : F := Ftwo * Ftwo.
Definition Fquarter : F := Fone / Ffour.
Definition Fsixth : F := Fone / (Ffour + Ftwo).
Definition Fminus_one : F := Fzero - Fone.

(** Two P1 tetrahedra glued along the face x = 0, with vertices
    0 = (0,0,0), 1 = (1,0,0), 2 = (0,1,0), 3 = (0,0,1) and 4 = (-1,0,0),
    each with the one-point rule at its barycentre. *)
Definition p1_gradients_right : list (Tensor1 F) :=
  [ mkTensor1 Fminus_one Fminus_one Fminus_one;
    mkTensor1 Fone Fzero Fzero;
    mkTensor1 Fzero Fone Fzero;
    mkTensor1 Fzero Fzero Fone ].

Definition p1_gradients_left : list (Tensor1 F) :=
  [ mkTensor1 Fone Fminus_one Fminus_one;
    mkTensor1 Fminus_one Fzero Fzero;
    mkTensor1 Fzero Fone Fzero;
    mkTensor1 Fzero Fzero Fone ].

Definition cell_right : Cell F :=
  mkCell true [0; 1; 2; 3]%nat
    (fun _ _ => Fquarter)
    (fun k _ => nth k p1_gradients_right tzero)
    (fun _ => Fsixth)
    (fun _ => mkTensor1 Fquarter Fquarter Fquarter).

Definition cell_left : Cell F :=
  mkCell true [0; 4; 2; 3]%nat
    (fun _ _ => Fquarter)
    (fun k _ => nth k p1_gradients_left tzero)
    (fun _ => Fsixth)
    (fun _ => mkTensor1 (Fzero - Fquarter) Fquarter Fquarter).

Definition two_tetrahedra : Discretization F :=
  mkDiscretization 4 1 [cell_right; cell_left]
    [ mkTensor1 Fzero Fzero Fzero;
      mkTensor1 Fone Fzero Fzero;
      mkTensor1 Fzero Fone Fzero;
      mkTensor1 Fzero Fzero Fone;
      mkTensor1 Fminus_one Fzero Fzero ].

Definition identity_tensor : Tensor2 F :=
  mkTensor2 (mkTensor1 Fone Fzero Fzero) (mkTensor1 Fzero Fone Fzero)
    (mkTensor1 Fzero Fzero Fone).

(** Isotropic diffusion, a forcing [f(x,t) = amplitude * t] and a constant
    initial condition. *)
Definition sample_coefficients (amplitude u_init : F) : Coefficients F :=
  mkCoefficients (fun _ => identity_tensor) (fun t _ => amplitude * t)
    (fun _ => u_init).

(** alpha = 1 and deltat = 1/2. *)
Definition sample_parameters (final_time : F) (n_max : nat) (tol cg_factor : F)
  : Parameters F :=
  mkParameters Fone final_time Fhalf n_max tol 20 cg_factor.

(** The object as [setup] leaves it: every vector and the matrix sized and
    zeroed. *)
Definition after_setup (n_dofs : nat) : FisherKolmogorov3D F :=
  mkFK Fzero Fzero (repeat (repeat Fzero n_dofs) n_dofs) (repeat Fzero n_dofs)
    (repeat Fzero n_dofs) (repeat Fzero n_dofs) (repeat Fzero n_dofs)
    (repeat Fzero n_dofs) [].

(** Plain conjugate gradients, to stand for the library's solver when the
    model is run. *)
Fixpoint vec_zip (op : F -> F -> F) (u v : Vector F) : Vector F :=
  match u, v with
  | x :: u', y :: v' => op x y :: vec_zip op u' v'
  | _, _ => []
  end.

Definition vec_dot (u v : Vector F) : F :=
  fold_left Fadd (vec_zip Fmul u v) Fzero.

Definition mat_vec (m : Matrix F) (v : Vector F) : Vector F :=
  map (fun row => vec_dot row v) m.

Definition axpy (a : F) (x y : Vector F) : Vector F :=
  vec_zip (fun xi yi => yi + a * xi) x y.

Fixpoint cg_iterate (norm : Vector F -> F) (k step : nat) (tol : F)
  (m : Matrix F) (x r p : Vector F) : option (Vector F * nat) :=
  if tol <? norm r then
    match k with
    | O => None
    | S k' =>
        let mp := mat_vec m p in
        let rr := vec_dot r r in
        let a := rr / vec_dot p mp in
        let x' := axpy a p x in
        let r' := axpy (Fzero - a) mp r in
        let b := vec_dot r' r' / rr in
        cg_iterate norm k' (S step) tol m x' r' (axpy b p r')
    end
  else Some (x, step).

Definition conjugate_gradient (norm : Vector F -> F) (max_iter : nat) (tol : F)
  (m : Matrix F) (x0 b : Vector F) : option (Vector F * nat) :=
  let r := axpy Fminus_one (mat_vec m x0) b in
  cg_iterate norm max_iter O tol m x0 r r.

(** A solver that never fails: it divides the right-hand side by the
    diagonal of the matrix (exact for a lumped system). *)
Definition diagonal (m : Matrix F) : Vector F :=
  map (fun i => mget m i i) (seq 0 (length m)).

Definition diagonal_solve (max_iter : nat) (tol : F) (m : Matrix F)
  (x0 b : Vector F) : option (Vector F * nat) :=
  Some (vec_zip Fdiv b (diagonal m), 1%nat).

End Sample.

(** The sample run in binary64. *)
Definition LinearAlgebra_float : LinearAlgebra PrimFloat.float :=
  mkLinearAlgebra l2_norm_float (conjugate_gradient l2_norm_float).

Definition tol_float : PrimFloat.float := 0x1p-30%float.
Definition cg_factor_float : PrimFloat.float := 0x1p-20%float.

(** The object at the start of the first Newton solve of a run that begins
    at the constant 1 without forcing: [time] is [deltat] and the forcing
    provider still holds the time 0. *)
Definition equilibrium_coefficients_float : Coefficients PrimFloat.float :=
  sample_coefficients 0%float 1%float.

Definition equilibrium_parameters_float : Parameters PrimFloat.float :=
  sample_parameters 1%float 5 tol_float cg_factor_float.

Definition first_step_float : FisherKolmogorov3D PrimFloat.float :=
  time_self
    (begin_time_step equilibrium_parameters_float
       (mkTimeLoop
          (apply_initial_condition two_tetrahedra equilibrium_coefficients_float
             (after_setup 5)) O)).

Definition after_first_newton_float : FisherKolmogorov3D PrimFloat.float :=
  match solve_newton two_tetrahedra equilibrium_coefficients_float
          equilibrium_parameters_float LinearAlgebra_float first_step_float with
  | Done s => s
  | _ => first_step_float
  end.

(** A run with forcing, started at 1/2 and capped at one Newton pass per
    timestep. *)
Definition forced_coefficients_float : Coefficients PrimFloat.float :=
  sample_coefficients 1%float 0.5%float.

Definition capped_parameters_float : Parameters PrimFloat.float :=
  sample_parameters 1%float 1 tol_float cg_factor_float.

Definition capped_start_float : TimeLoop PrimFloat.float :=
  mkTimeLoop
    (apply_initial_condition two_tetrahedra forced_coefficients_float (after_setup 5)) O.

Definition capped_newton_end_float : NewtonLoop PrimFloat.float :=
  match newton_iterations two_tetrahedra forced_coefficients_float
          capped_parameters_float LinearAlgebra_float
          (time_self (begin_time_step capped_parameters_float capped_start_float)) with
  | Done w => w
  | _ => newton_init capped_parameters_float (time_self capped_start_float)
  end.

(** An affine P1 tetrahedron with vertices (0,0,0), (0.3,0,0), (0.1,0.7,0)
    and (0.2,0.1,0.9), the four-point Gauss rule, and the anisotropic
    tensor [D = Dext I + Daxn n (x) n] for [Dext = 1], [Daxn = 10] and
    [n = (1,1,1)/sqrt 3], in binary64. *)
Definition gauss_a : PrimFloat.float := ((5 + 3 * PrimFloat.sqrt 5) / 20)%float.
Definition gauss_b : PrimFloat.float := ((5 - PrimFloat.sqrt 5) / 20)%float.

Definition skew_gradient_3 : Tensor1 PrimFloat.float :=
  mkTensor1 0%float 0%float (1 / (9 / 10))%float.
Definition skew_gradient_2 : Tensor1 PrimFloat.float :=
  mkTensor1 0%float (1 / (7 / 10))%float (0 - (1 / 10) / (7 / 10) / (9 / 10))%float.
Definition skew_gradient_1 : Tensor1 PrimFloat.float :=
  tscale (1 / (3 / 10))%float
    (tadd (mkTensor1 1%float 0%float 0%float)
       (tadd (tscale (0 - 1 / 10)%float skew_gradient_2)
          (tscale (0 - 2 / 10)%float skew_gradient_3))).
Definition skew_gradient_0 : Tensor1 PrimFloat.float :=
  tscale (0 - 1)%float (tadd skew_gradient_1 (tadd skew_gradient_2 skew_gradient_3)).

Definition skew_cell : Cell PrimFloat.float :=
  mkCell true [0; 1; 2; 3]%nat
    (fun k q => if (k =? q)%nat then gauss_a else gauss_b)
    (fun k _ =>
       nth k [skew_gradient_0; skew_gradient_1; skew_gradient_2; skew_gradient_3] tzero)
    (fun _ => ((3 / 10) * (7 / 10) * (9 / 10) / 24)%float)
    (fun _ => tzero).

Definition skew_mesh : Discretization PrimFloat.float :=
  mkDiscretization 4 4 [skew_cell] [tzero; tzero; tzero; tzero].

Definition anisotropic_tensor : Tensor2 PrimFloat.float :=
  mkTensor2 (mkTensor1 (1 + 10 / 3) (10 / 3) (10 / 3))%float
    (mkTensor1 (10 / 3) (1 + 10 / 3) (10 / 3))%float
    (mkTensor1 (10 / 3) (10 / 3) (1 + 10 / 3))%float.

Definition anisotropic_coefficients : Coefficients PrimFloat.float :=
  mkCoefficients (fun _ => anisotropic_tensor) (fun _ _ => 0%float) (fun _ => 1%float).

(** The defaults of the parameter file. *)
Definition default_parameters_float : Parameters PrimFloat.float :=
  mkParameters (1 / 10)%float 1%float (1 / 10)%float 1000
    (1 / 1000000)%float 1000 (1 / 1000000)%float.

(** An affine P1 tetrahedron with vertices (0,0,0), (0.3,0.1,0.2),
    (0.1,0.7,0.3) and (0.2,0.1,0.9), in binary64: the gradients of the shape
    functions 1, 2, 3 are the rows of the inverse of the matrix of edges,
    the gradient of the shape function 0 is minus their sum, and the
    quadrature is the four-point Gauss rule. *)
Definition cross_float (a b : Tensor1 PrimFloat.float) : Tensor1 PrimFloat.float :=
  mkTensor1 (ty a * tz b - tz a * ty b)%float (tz a * tx b - tx a * tz b)%float
    (tx a * ty b - ty a * tx b)%float.

Definition generic_edge_1 : Tensor1 PrimFloat.float :=
  mkTensor1 (3 / 10)%float (1 / 10)%float (2 / 10)%float.
Definition generic_edge_2 : Tensor1 PrimFloat.float :=
  mkTensor1 (1 / 10)%float (7 / 10)%float (3 / 10)%float.
Definition generic_edge_3 : Tensor1 PrimFloat.float :=
  mkTensor1 (2 / 10)%float (1 / 10)%float (9 / 10)%float.

Definition generic_det : PrimFloat.float :=
  dot generic_edge_1 (cross_float generic_edge_2 generic_edge_3).

Definition generic_gradient_1 : Tensor1 PrimFloat.float :=
  tscale (1 / generic_det)%float (cross_float generic_edge_2 generic_edge_3).
Definition generic_gradient_2 : Tensor1 PrimFloat.float :=
  tscale (1 / generic_det)%float (cross_float generic_edge_3 generic_edge_1).
Definition generic_gradient_3 : Tensor1 PrimFloat.float :=
  tscale (1 / generic_det)%float (cross_float generic_edge_1 generic_edge_2).
Definition generic_gradient_0 : Tensor1 PrimFloat.float :=
  tscale (0 - 1)%float
    (tadd (tadd generic_gradient_1 generic_gradient_2) generic_gradient_3).

Definition generic_cell : Cell PrimFloat.float :=
  mkCell true [0; 1; 2; 3]%nat
    (fun k q => if (k =? q)%nat then gauss_a else gauss_b)
    (fun k _ =>
       nth k [generic_gradient_0; generic_gradient_1; generic_gradient_2;
              generic_gradient_3] tzero)
    (fun _ => (generic_det / 24)%float)
    (fun _ => tzero).

Definition generic_mesh : Discretization PrimFloat.float :=
  mkDiscretization 4 4 [generic_cell] [tzero; tzero; tzero; tzero].

(** The object with [solution] and [solution_old] at the constant 1. *)
Definition constant_one_float : FisherKolmogorov3D PrimFloat.float :=
  mkFK 0%float 0%float (repeat (repeat 0%float 4) 4) (repeat 0%float 4)
    (repeat 1%float 4) (repeat 0%float 4) (repeat 1%float 4) (repeat 1%float 4) [].

(** The defaults of the parameter file with a Newton tolerance of 2^-80 and
    at most three Newton passes; and with the step size zero. *)
Definition tiny_tolerance_parameters_float : Parameters PrimFloat.float :=
  mkParameters (1 / 10)%float 1%float (1 / 10)%float 3
    0x1p-80%float 1000 (1 / 1000000)%float.

Definition zero_step_parameters_float : Parameters PrimFloat.float :=
  mkParameters (1 / 10)%float 1%float 0%float 1000
    (1 / 1000000)%float 1000 (1 / 1000000)%float.

(** The same mesh in exact arithmetic. *)
Definition equilibrium_coefficients_R : Coefficients R :=
  sample_coefficients 0%R 1%R.

Definition sample_parameters_R (final_time : R) : Parameters R :=
  sample_parameters final_time 5 (1 / 4)%R 0%R.

Definition LinearAlgebra_R_diagonal : LinearAlgebra R :=
  LinearAlgebra_R diagonal_solve.

(** ** The spec's formulas, in exact arithmetic *)

Section RealFormulas.

Variable disc : Discretization R.
Variable coef : Coefficients R.
Variable prm : Parameters R.
Local Open Scope R_scope.

(** The quadrature sum [g 0 + ... + g (n-1)]. *)
Definition Rsum (n : nat) (g : nat -> R) : R :=
  for_loop n (fun k acc => acc + g k) 0.

(** The three contributions to the Jacobian block at a quadrature node, as
    the spec lists them; [u] is the vector the field is evaluated from. *)
Definition mass_term (c : Cell R) (q i j : nat) : R :=
  1 / deltat prm * shape_value c i q * shape_value c j q * JxW c q.

Definition diffusion_term (c : Cell R) (q i j : nat) : R :=
  dot (contract (d_value coef (quadrature_point c q)) (shape_grad c i q))
    (shape_grad c j q) * JxW c q.

Definition reaction_linearization (c : Cell R) (u : list R) (q i j : nat) : R :=
  - alpha prm * shape_value c i q * (1 - 2 * get_function_values disc c u q) *
    shape_value c j q * JxW c q.

(** The vector [u + h e_g]. *)
Definition perturb (g : nat) (h : R) (u : list R) : list R := vadd_at g h u.

(** The discrete left-hand side tested with the shape function [i]: the
    negated element residual, as a function of the coefficient vector. *)
Definition element_lhs (c : Cell R) (f_time : R) (u u_old : list R) (i : nat) : R :=
  - vget (cell_residual_of disc coef prm c f_time u u_old) i.

(** The second-order coefficient of [element_lhs] along [e_(dof j)]. *)
Definition reaction_curvature (c : Cell R) (i j : nat) : R :=
  Rsum (n_q disc) (fun q =>
    alpha prm * shape_value c j q * shape_value c j q * shape_value c i q * JxW c q).

(** A cell whose local-to-global map has one entry per local DoF, without
    repetition, all within a vector of [n_dofs] entries. *)
Definition cell_well_formed (n_dofs : nat) (c : Cell R) : Prop :=
  length (get_dof_indices c) = dofs_per_cell disc /\
  NoDup (get_dof_indices c) /\
  Forall (fun g => (g < n_dofs)%nat) (get_dof_indices c).


Definition mesh_well_formed : Prop :=
  forall c, In c (active_cell_iterators disc) ->
            cell_well_formed (length (support_points disc)) c.




End RealFormulas.

(** ** Scatter-add, in exact arithmetic *)

(** What the scatter of one cell adds to the global entry [a], to the global
    entry [(a, b)], and the sum of a quantity over a list of cells. *)
Definition dof_contribution (dofs : list nat) (cell_residual : list R) (a : nat) : R :=
  Rsum (length dofs)
    (fun i => if (nth i dofs O =? a)%nat then vget cell_residual i else 0%R).

Definition block_contribution (dofs : list nat) (cell_matrix : list (list R))
  (a b : nat) : R :=
  Rsum (length dofs) (fun i =>
    Rsum (length dofs) (fun j =>
      if ((nth i dofs O =? a)%nat && (nth j dofs O =? b)%nat)%bool
      then mget cell_matrix i j else 0%R)).

Definition Rsum_cells (g : Cell R -> R) (cells : list (Cell R)) : R :=
  fold_right (fun c acc => (g c + acc)%R) 0%R cells.

(** ** Further sample runs *)

(** The run with forcing, with room for eight Newton passes. *)
Definition forced_parameters_float : Parameters PrimFloat.float :=
  sample_parameters 1%float 8 tol_float cg_factor_float.

Definition forced_step_float : FisherKolmogorov3D PrimFloat.float :=
  time_self (begin_time_step forced_parameters_float capped_start_float).

Definition forced_newton_end_float : NewtonLoop PrimFloat.float :=
  match newton_iterations two_tetrahedra forced_coefficients_float
          forced_parameters_float LinearAlgebra_float forced_step_float with
  | Done w => w
  | _ => newton_init forced_parameters_float forced_step_float
  end.


(** A solver that never converges, with the binary64 norm. *)
Definition LinearAlgebra_float_failing : LinearAlgebra PrimFloat.float :=
  mkLinearAlgebra l2_norm_float (fun _ _ _ _ _ => None).

(** Parameters with the step size zero: alpha = 1, T = 1, deltat = 0. *)
Definition zero_step_parameters_R : Parameters R :=
  mkParameters 1%R 1%R 0%R 5 (1 / 4)%R 20 0%R.

(** * ParameterReader.hpp *)

Module ParameterReader.

(** ** The part of the library's [ParameterHandler] that the reader drives

    [Patterns::Integer(lower)] and [Patterns::Double(lower)] leave the upper
    bound at its default, the largest [int] and the largest [double]. *)
Inductive Pattern : Type :=
| Anything
| Integer (lower_bound upper_bound : Z)
| Double (lower_bound upper_bound : float).

Definition max_int_value : Z := 2147483647.
Definition max_double_value : float := 0x1.fffffffffffffp+1023%float.

(** [match] on a value already read as a number: inside the bounds, or any
    value when the bounds are given in the wrong order. *)
Definition match_int (p : Pattern) (i : Z) : bool :=
  match p with
  | Anything => true
  | Integer lo hi => if (lo <=? hi)%Z then (lo <=? i)%Z && (i <=? hi)%Z else true
  | Double _ _ => false
  end.

Definition match_double (p : Pattern) (d : float) : bool :=
  match p with
  | Anything => true
  | Integer _ _ => false
  | Double lo hi =>
      if PrimFloat.leb lo hi then PrimFloat.leb lo d && PrimFloat.leb d hi else true
  end.

Record Entry : Type := mkEntry {
  default_value : string;
  pattern : Pattern;
  documentation : string }.

(** The handler: the subsection it is in, outermost first, and the declared
    entries, each under the path of its subsection followed by its name. *)
Record ParameterHandler : Type := mkParameterHandler {
  subsection_path : list string;
  entries : list (list string * Entry) }.

Definition path_eqb (p q : list string) : bool :=
  if list_eq_dec string_dec p q then true else false.

Fixpoint put (key : list string) (e : Entry) (l : list (list string * Entry))
  : list (list string * Entry) :=
  match l with
  | [] => [(key, e)]
  | (k, e') :: l' => if path_eqb k key then (k, e) :: l' else (k, e') :: put key e l'
  end.

Fixpoint get (key : list string) (l : list (list string * Entry)) : option Entry :=
  match l with
  | [] => None
  | (k, e) :: l' => if path_eqb k key then Some e else get key l'
  end.

Definition enter_subsection (subsection : string) (prm : ParameterHandler)
  : ParameterHandler :=
  mkParameterHandler (subsection_path prm ++ [subsection]) (entries prm).

(** [leave_subsection] throws at the top level. *)
Definition leave_subsection (prm : ParameterHandler) : option ParameterHandler :=
  match subsection_path prm with
  | [] => None
  | _ => Some (mkParameterHandler (removelast (subsection_path prm)) (entries prm))
  end.

(** [declare_entry] stores the entry under the current subsection, over an
    earlier declaration of the same entry.  The library also tests the
    default against the pattern, with its own reader of numbers; that test
    is not part of this model. *)
Definition declare_entry (entry default : string) (pat : Pattern) (doc : string)
  (prm : ParameterHandler) : ParameterHandler :=
  mkParameterHandler (subsection_path prm)
    (put (subsection_path prm ++ [entry]) (mkEntry default pat doc) (entries prm)).

(** The entry [entry] of the subsection [subsection] of the current one. *)
Definition declared (subsection entry : string) (prm : ParameterHandler) : option Entry :=
  get (subsection_path prm ++ [subsection; entry]) (entries prm).

Definition and_then {A B : Type} (x : option A) (f : A -> option B) : option B :=
  match x with
  | Some a => f a
  | None => None
  end.

Local Open Scope string_scope.

(** ** ParameterReader::declare_parameters *)
Definition declare_parameters (prm : ParameterHandler) : option ParameterHandler :=
  let prm := enter_subsection "Mesh & geometry parameters" prm in
  let prm := declare_entry "Degree" "1" (Integer 1 max_int_value)
               "Polynomial degree of finite element" prm in
  and_then (leave_subsection prm) (fun prm =>
  let prm := enter_subsection "Physical constants" prm in
  let prm := declare_entry "Dext" "1.0" (Double 0 max_double_value)
               "Dext coefficient for diffusion term" prm in
  let prm := declare_entry "Daxn" "10.0" (Double 0 max_double_value)
               "Daxn coefficient for diffusion term" prm in
  let prm := declare_entry "Alpha coefficient" "0.1" (Double 0 max_double_value)
               "Alpha coefficient for reaction term" prm in
  and_then (leave_subsection prm) (fun prm =>
  let prm := enter_subsection "Time stepping parameters" prm in
  let prm := declare_entry "T" "1.0" (Double 0 max_double_value)
               "Final simulation time" prm in
  let prm := declare_entry "deltat" "0.1" (Double 0 max_double_value)
               "Time step size" prm in
  let prm := declare_entry "Theta" "1.0" (Double 0 1)
               "Theta value for the time-stepping method (0=explicit, 1=implicit)"
               prm in
  and_then (leave_subsection prm) (fun prm =>
  let prm := enter_subsection "Solver parameters" prm in
  let prm := declare_entry "Max Newton iterations" "1000" (Integer 1 max_int_value)
               "Maximum number of Newton iterations" prm in
  let prm := declare_entry "Newton tolerance" "1e-6" (Double 0 max_double_value)
               "Tolerance for Newton iterations" prm in
  let prm := declare_entry "Max CG iterations" "1000" (Integer 1 max_int_value)
               "Maximum number of CG iterations" prm in
  let prm := declare_entry "CG tolerance factor" "1e-6" (Double 0 max_double_value)
               "Tolerance factor for CG solver (multiplied by residual norm)" prm in
  leave_subsection prm))).

(** The entries [declare_parameters] declares, by subsection and name; those
    with the pattern [Double(0)]; those with the pattern [Integer(1)]. *)
Definition nonnegative_doubles : list (string * string) :=
  [ ("Physical constants", "Dext");
    ("Physical constants", "Daxn");
    ("Physical constants", "Alpha coefficient");
    ("Time stepping parameters", "T");
    ("Time stepping parameters", "deltat");
    ("Solver parameters", "Newton tolerance");
    ("Solver parameters", "CG tolerance factor") ]%list.

Definition positive_integers : list (string * string) :=
  [ ("Mesh & geometry parameters", "Degree");
    ("Solver parameters", "Max Newton iterations");
    ("Solver parameters", "Max CG iterations") ]%list.

Definition declared_names : list (string * string) :=
  (("Time stepping parameters", "Theta") :: nonnegative_doubles ++ positive_integers)%list.

(** ** ParameterReader::read_parameters

    [parse_input] is the library's; it may throw. *)
Definition read_parameters
  (parse_input : string -> ParameterHandler -> option ParameterHandler)
  (parameter_file : string) (prm : ParameterHandler) : option ParameterHandler :=
  and_then (declare_parameters prm) (parse_input parameter_file).

End ParameterReader.

(** * Properties *)

(** ** Loops and containers *)

Lemma for_loop_S {S : Type} (n : nat) (body : nat -> S -> S) (s : S) :
  for_loop (Datatypes.S n) body s = body n (for_loop n body s).
Proof.
  unfold for_loop. rewrite seq_S, fold_left_app. reflexivity.
Qed.

(** An invariant of the body is an invariant of the loop. *)
Lemma for_loop_inv {S : Type} (Inv : S -> Prop) (n : nat) (body : nat -> S -> S) :
  (forall k s, k < n -> Inv s -> Inv (body k s)) ->
  forall s, Inv s -> Inv (for_loop n body s).
Proof.
  induction n as [|n IH]; intros Hb s Hs.
  - exact Hs.
  - rewrite for_loop_S. apply Hb; [lia|]. apply IH; [|exact Hs].
    intros k s' Hk. apply Hb. lia.
Qed.

(** An observation that every pass transforms by [g k] is folded by the loop. *)
Lemma for_loop_fold {S A : Type} (Inv : S -> Prop) (obs : S -> A)
  (g : nat -> A -> A) (n : nat) (body : nat -> S -> S) :
  (forall k s, k < n -> Inv s -> Inv (body k s)) ->
  (forall k s, k < n -> Inv s -> obs (body k s) = g k (obs s)) ->
  forall s, Inv s -> obs (for_loop n body s) = for_loop n g (obs s).
Proof.
  induction n as [|n IH]; intros Hi Ho s Hs.
  - reflexivity.
  - rewrite !for_loop_S, Ho; [|lia|].
    + f_equal. apply IH; auto.
    + apply for_loop_inv; auto.
Qed.

(** An observation that no pass changes is unchanged by the loop. *)
Lemma for_loop_miss {S A : Type} (Inv : S -> Prop) (obs : S -> A)
  (n : nat) (body : nat -> S -> S) :
  (forall k s, k < n -> Inv s -> Inv (body k s)) ->
  (forall k s, k < n -> Inv s -> obs (body k s) = obs s) ->
  forall s, Inv s -> obs (for_loop n body s) = obs s.
Proof.
  induction n as [|n IH]; intros Hi Ho s Hs.
  - reflexivity.
  - rewrite for_loop_S, Ho; [|lia|].
    + apply IH; auto.
    + apply for_loop_inv; auto.
Qed.

(** An observation that exactly the pass [k0] changes, by [g]. *)
Lemma for_loop_hit {S A : Type} (Inv : S -> Prop) (obs : S -> A) (g : A -> A)
  (n k0 : nat) (body : nat -> S -> S) :
  k0 < n ->
  (forall k s, k < n -> Inv s -> Inv (body k s)) ->
  (forall k s, k < n -> k <> k0 -> Inv s -> obs (body k s) = obs s) ->
  (forall s, Inv s -> obs (body k0 s) = g (obs s)) ->
  forall s, Inv s -> obs (for_loop n body s) = g (obs s).
Proof.
  induction n as [|n IH]; intros Hk Hi Hm Hh s Hs; [lia|].
  rewrite for_loop_S.
  assert (Hinv : Inv (for_loop n body s)) by (apply for_loop_inv; auto).
  destruct (Nat.eq_dec k0 n) as [->|Hne].
  - rewrite Hh by exact Hinv. f_equal.
    apply for_loop_miss with (Inv := Inv); auto.
    intros k s' Hk'. apply Hm; lia.
  - rewrite Hm; [|lia|lia|exact Hinv].
    apply IH; auto. lia.
Qed.

Lemma update_at_length {A : Type} (f : A -> A) (k : nat) (v : list A) :
  length (update_at f k v) = length v.
Proof.
  revert k. induction v as [|x v IH]; intros [|k]; simpl; auto.
Qed.

Lemma nth_update_at_same {A : Type} (f : A -> A) (k : nat) (v : list A) (d : A) :
  k < length v -> nth k (update_at f k v) d = f (nth k v d).
Proof.
  revert k. induction v as [|x v IH]; intros [|k] Hk; simpl in *; try lia; auto.
  apply IH. lia.
Qed.

Lemma nth_update_at_other {A : Type} (f : A -> A) (k k' : nat) (v : list A) (d : A) :
  k <> k' -> nth k' (update_at f k v) d = nth k' v d.
Proof.
  revert k k'. induction v as [|x v IH]; intros [|k] [|k'] Hk; simpl; auto; try lia.
Qed.

Lemma update_at_Forall {A : Type} (P : A -> Prop) (f : A -> A) (k : nat) (v : list A) :
  (forall x, P x -> P (f x)) -> Forall P v -> Forall P (update_at f k v).
Proof.
  intros Hf. revert k. induction v as [|x v IH]; intros k Hv; simpl.
  - destruct k; constructor.
  - inversion Hv; subst. destruct k; constructor; auto.
Qed.

Lemma map_const_update_at {A B : Type} (b : B) (f : A -> A) (k : nat) (v : list A) :
  map (fun _ => b) (update_at f k v) = map (fun _ => b) v.
Proof.
  revert k. induction v as [|x v IH]; intros [|k]; simpl; auto.
  f_equal. apply IH.
Qed.

Lemma bind_Done_inv {A B : Type} (m : Outcome A) (k : A -> Outcome B) (b : B) :
  bind m k = Done b -> exists a, m = Done a /\ k a = Done b.
Proof.
  destruct m; simpl; intros H; try discriminate. eauto.
Qed.

(** ** The element block and the element residual, entry by entry *)

Section CellEntries.

Context {F : Type} {num : Num F}.
Variable disc : Discretization F.
Variable coef : Coefficients F.
Variable prm : Parameters F.
Local Open Scope num_scope.

Lemma mshape_repeat (n : nat) : mshape n (repeat (repeat (Fzero : F) n) n).
Proof.
  split.
  - apply repeat_length.
  - apply Forall_forall. intros row Hrow.
    apply repeat_spec in Hrow. subst row. apply repeat_length.
Qed.

Lemma mshape_update_at (n i : nat) (f : Vector F -> Vector F) (m : Matrix F) :
  (forall row, length (f row) = length row) ->
  mshape n m -> mshape n (update_at f i m).
Proof.
  intros Hf [Hl Hr]. split.
  - rewrite update_at_length. exact Hl.
  - apply update_at_Forall; [|exact Hr].
    intros row Hrow. rewrite Hf. exact Hrow.
Qed.

Lemma mshape_row (n i : nat) (m : Matrix F) :
  mshape n m -> i < n -> length (nth i m []) = n.
Proof.
  intros [Hl Hr] Hi.
  rewrite Forall_forall in Hr. apply Hr. apply nth_In. lia.
Qed.

Lemma mget_update_at (n i j i0 j0 : nat) (g : F -> F) (m : Matrix F) :
  mshape n m -> i < n -> j < n ->
  mget (update_at (update_at g j) i m) i0 j0 =
  if (i =? i0)%nat && (j =? j0)%nat then g (mget m i0 j0) else mget m i0 j0.
Proof.
  intros Hm Hi Hj. unfold mget.
  destruct (Nat.eqb_spec i i0) as [->|Hne]; simpl.
  - rewrite nth_update_at_same by (destruct Hm; lia).
    destruct (Nat.eqb_spec j j0) as [->|Hne].
    + apply nth_update_at_same. rewrite (mshape_row Hm); lia.
    + apply nth_update_at_other. exact Hne.
  - rewrite nth_update_at_other by exact Hne. reflexivity.
Qed.

Lemma matrix_entry_update_shape (c : Cell F) (sl : F) (dl : Tensor2 F)
  (q i j n : nat) (m : Matrix F) :
  mshape n m -> mshape n (matrix_entry_update prm c sl dl q i j m).
Proof.
  intros Hm. unfold matrix_entry_update, madd_at, msub_at, vadd_at, vsub_at.
  repeat apply mshape_update_at; auto; intros; apply update_at_length.
Qed.

Lemma residual_entry_update_length (c : Cell F) (sl : F) (sg : Tensor1 F) (so : F)
  (dl : Tensor2 F) (fl : F) (q i : nat) (v : Vector F) :
  length (residual_entry_update prm c sl sg so dl fl q i v) = length v.
Proof.
  unfold residual_entry_update, vadd_at, vsub_at.
  rewrite !update_at_length. reflexivity.
Qed.

(** One pass of the innermost loop on the entry [(i0, j0)]. *)
Lemma matrix_entry_update_mget (c : Cell F) (u : Vector F) (q i j i0 j0 : nat)
  (m : Matrix F) :
  let n := dofs_per_cell disc in
  mshape n m -> i < n -> j < n ->
  mget (matrix_entry_update prm c (get_function_values disc c u q)
          (d_value coef (quadrature_point c q)) q i j m) i0 j0 =
  if (i =? i0)%nat && (j =? j0)%nat
  then matrix_entry_step disc coef prm c u q i0 j0 (mget m i0 j0)
  else mget m i0 j0.
Proof.
  intros n Hm Hi Hj.
  unfold matrix_entry_update, madd_at, msub_at, vadd_at, vsub_at.
  rewrite (@mget_update_at n), (@mget_update_at n), (@mget_update_at n); auto;
    try (repeat apply mshape_update_at; auto; intros; apply update_at_length).
  destruct (Nat.eqb_spec i i0) as [->|]; [|reflexivity].
  destruct (Nat.eqb_spec j j0) as [->|]; reflexivity.
Qed.

(** The four updates of the residual on the entry [i0]. *)
Lemma residual_entry_update_vget (c : Cell F) (f_time : F) (u u_old : Vector F)
  (q i i0 : nat) (v : Vector F) :
  i < length v ->
  vget (residual_entry_update prm c (get_function_values disc c u q)
          (get_function_gradients disc c u q) (get_function_values disc c u_old q)
          (d_value coef (quadrature_point c q))
          (forcing_term_value coef f_time (quadrature_point c q)) q i v) i0 =
  if (i =? i0)%nat
  then residual_entry_step disc coef prm c f_time u u_old q i0 (vget v i0)
  else vget v i0.
Proof.
  intros Hi. unfold residual_entry_update, vadd_at, vsub_at, vget.
  destruct (Nat.eqb_spec i i0) as [->|Hne].
  - rewrite !nth_update_at_same by (rewrite ?update_at_length; exact Hi).
    reflexivity.
  - rewrite !nth_update_at_other by exact Hne. reflexivity.
Qed.

Lemma quadrature_node_shape (c : Cell F) (f_time : F) (u u_old : Vector F) (q : nat)
  (loc : Matrix F * Vector F) :
  let n := dofs_per_cell disc in
  loc_shape n loc -> loc_shape n (quadrature_node disc coef prm c f_time u u_old q loc).
Proof.
  intros n Hloc. unfold quadrature_node.
  apply for_loop_inv with (Inv := loc_shape n); [|exact Hloc].
  intros i [m v] _ [Hm Hv]. split; simpl in *.
  - apply for_loop_inv with (Inv := mshape n); [|exact Hm].
    intros j m' _ Hm'. apply matrix_entry_update_shape. exact Hm'.
  - rewrite residual_entry_update_length. exact Hv.
Qed.

(** One quadrature node on the entry [(i0, j0)] of the element block. *)
Lemma quadrature_node_mget (c : Cell F) (f_time : F) (u u_old : Vector F)
  (q i0 j0 : nat) (loc : Matrix F * Vector F) :
  let n := dofs_per_cell disc in
  loc_shape n loc -> i0 < n -> j0 < n ->
  mget (fst (quadrature_node disc coef prm c f_time u u_old q loc)) i0 j0 =
  matrix_entry_step disc coef prm c u q i0 j0 (mget (fst loc) i0 j0).
Proof.
  intros n Hloc Hi0 Hj0. unfold quadrature_node.
  apply for_loop_hit with (Inv := loc_shape n) (k0 := i0)
    (obs := fun loc : Matrix F * Vector F => mget (fst loc) i0 j0); auto.
  - intros i [m v] _ [Hm Hv]. split; simpl in *.
    + apply for_loop_inv with (Inv := mshape n); [|exact Hm].
      intros j m' _ Hm'. apply matrix_entry_update_shape. exact Hm'.
    + rewrite residual_entry_update_length. exact Hv.
  - intros i [m v] Hi Hne [Hm Hv]. simpl in *.
    apply for_loop_miss with (Inv := mshape n)
      (obs := fun m : Matrix F => mget m i0 j0); auto.
    + intros j m' _ Hm'. apply matrix_entry_update_shape. exact Hm'.
    + intros j m' Hj Hm'. rewrite matrix_entry_update_mget; auto.
      destruct (Nat.eqb_spec i i0); [contradiction|reflexivity].
  - intros [m v] [Hm Hv]. simpl in *.
    apply for_loop_hit with (Inv := mshape n) (k0 := j0)
      (obs := fun m : Matrix F => mget m i0 j0); auto.
    + intros j m' _ Hm'. apply matrix_entry_update_shape. exact Hm'.
    + intros j m' Hj Hne Hm'. rewrite matrix_entry_update_mget; auto.
      rewrite Nat.eqb_refl. simpl.
      destruct (Nat.eqb_spec j j0); [contradiction|reflexivity].
    + intros m' Hm'. rewrite matrix_entry_update_mget; auto.
      rewrite !Nat.eqb_refl. reflexivity.
Qed.

(** One quadrature node on the entry [i0] of the element residual. *)
Lemma quadrature_node_vget (c : Cell F) (f_time : F) (u u_old : Vector F)
  (q i0 : nat) (loc : Matrix F * Vector F) :
  let n := dofs_per_cell disc in
  loc_shape n loc -> i0 < n ->
  vget (snd (quadrature_node disc coef prm c f_time u u_old q loc)) i0 =
  residual_entry_step disc coef prm c f_time u u_old q i0 (vget (snd loc) i0).
Proof.
  intros n Hloc Hi0. unfold quadrature_node.
  apply for_loop_hit with (Inv := loc_shape n) (k0 := i0)
    (obs := fun loc : Matrix F * Vector F => vget (snd loc) i0); auto.
  - intros i [m v] _ [Hm Hv]. split; simpl in *.
    + apply for_loop_inv with (Inv := mshape n); [|exact Hm].
      intros j m' _ Hm'. apply matrix_entry_update_shape. exact Hm'.
    + rewrite residual_entry_update_length. exact Hv.
  - intros i [m v] Hi Hne [Hm Hv]. simpl in *.
    rewrite residual_entry_update_vget by lia.
    destruct (Nat.eqb_spec i i0); [contradiction|reflexivity].
  - intros [m v] [Hm Hv]. simpl in *.
    rewrite residual_entry_update_vget by lia.
    rewrite Nat.eqb_refl. reflexivity.
Qed.

Lemma assemble_cell_shape (c : Cell F) (f_time : F) (u u_old : Vector F) :
  loc_shape (dofs_per_cell disc) (assemble_cell disc coef prm c f_time u u_old).
Proof.
  unfold assemble_cell.
  apply for_loop_inv with (Inv := loc_shape (dofs_per_cell disc)).
  - intros q loc _ Hloc. apply quadrature_node_shape. exact Hloc.
  - split; simpl; [apply mshape_repeat | apply repeat_length].
Qed.

Lemma mget_repeat_zero (n i j : nat) :
  mget (repeat (repeat (Fzero : F) n) n) i j = Fzero.
Proof.
  unfold mget. destruct (Nat.lt_ge_cases i n) as [Hi|Hi].
  - rewrite nth_repeat_lt by exact Hi. apply nth_repeat.
  - rewrite (nth_overflow (repeat _ n)) by (rewrite repeat_length; exact Hi).
    destruct j; reflexivity.
Qed.

(** The entry [(i, j)] of the element block is what the loop over the
    quadrature nodes accumulates on that entry alone. *)
Lemma cell_matrix_entry (c : Cell F) (f_time : F) (u u_old : Vector F) (i j : nat) :
  i < dofs_per_cell disc -> j < dofs_per_cell disc ->
  mget (cell_matrix_of disc coef prm c f_time u u_old) i j =
  for_loop (n_q disc) (fun q => matrix_entry_step disc coef prm c u q i j) Fzero.
Proof.
  intros Hi Hj. unfold cell_matrix_of, assemble_cell.
  rewrite for_loop_fold with (Inv := loc_shape (dofs_per_cell disc))
    (obs := fun loc : Matrix F * Vector F => mget (fst loc) i j)
    (g := fun q => matrix_entry_step disc coef prm c u q i j).
  - simpl. rewrite mget_repeat_zero. reflexivity.
  - intros q loc _ Hloc. apply quadrature_node_shape. exact Hloc.
  - intros q loc _ Hloc. apply quadrature_node_mget; auto.
  - split; simpl; [apply mshape_repeat | apply repeat_length].
Qed.

(** The entry [i] of the element residual, likewise. *)
Lemma cell_residual_entry (c : Cell F) (f_time : F) (u u_old : Vector F) (i : nat) :
  i < dofs_per_cell disc ->
  vget (cell_residual_of disc coef prm c f_time u u_old) i =
  for_loop (n_q disc)
    (fun q => residual_entry_step disc coef prm c f_time u u_old q i) Fzero.
Proof.
  intros Hi. unfold cell_residual_of, assemble_cell.
  rewrite for_loop_fold with (Inv := loc_shape (dofs_per_cell disc))
    (obs := fun loc : Matrix F * Vector F => vget (snd loc) i)
    (g := fun q => residual_entry_step disc coef prm c f_time u u_old q i).
  - simpl. unfold vget. rewrite nth_repeat. reflexivity.
  - intros q loc _ Hloc. apply quadrature_node_shape. exact Hloc.
  - intros q loc _ Hloc. apply quadrature_node_vget; auto.
  - split; simpl; [apply mshape_repeat | apply repeat_length].
Qed.

End CellEntries.

(** ** Exact arithmetic: quadrature sums *)

Ltac real_ops :=
  unfold Fhalf, Ftwo in *;
  cbn [Fadd Fsub Fmul Fdiv Fzero Fone Fltb Num_R] in *.

Section RealSums.

Local Open Scope R_scope.

Lemma Rsum_O (g : nat -> R) : Rsum 0 g = 0.
Proof. reflexivity. Qed.

Lemma Rsum_S (n : nat) (g : nat -> R) : Rsum (S n) g = Rsum n g + g n.
Proof. unfold Rsum. rewrite for_loop_S. reflexivity. Qed.

Lemma Rsum_ext (n : nat) (f g : nat -> R) :
  (forall k, (k < n)%nat -> f k = g k) -> Rsum n f = Rsum n g.
Proof.
  induction n as [|n IH]; intros H; [reflexivity|].
  rewrite !Rsum_S, IH, H; auto.
Qed.

Lemma Rsum_plus (n : nat) (f g : nat -> R) :
  Rsum n (fun k => f k + g k) = Rsum n f + Rsum n g.
Proof.
  induction n as [|n IH]; [rewrite !Rsum_O; ring|].
  rewrite !Rsum_S, IH. ring.
Qed.

Lemma Rsum_scal (n : nat) (a : R) (f : nat -> R) :
  Rsum n (fun k => a * f k) = a * Rsum n f.
Proof.
  induction n as [|n IH]; [rewrite !Rsum_O; ring|].
  rewrite !Rsum_S, IH. ring.
Qed.

Lemma Rsum_zero (n : nat) : Rsum n (fun _ => 0) = 0.
Proof.
  induction n as [|n IH]; [reflexivity|]. rewrite Rsum_S, IH. ring.
Qed.

Lemma Rsum_single (n j : nat) (a : R) (f : nat -> R) :
  (j < n)%nat ->
  Rsum n (fun k => (if (k =? j)%nat then a else 0) * f k) = a * f j.
Proof.
  induction n as [|n IH]; intros Hj; [lia|].
  rewrite Rsum_S. destruct (Nat.eqb_spec n j) as [->|Hne].
  - rewrite Rsum_ext with (g := fun _ => 0).
    + rewrite Rsum_zero. ring.
    + intros k Hk. destruct (Nat.eqb_spec k j); [lia|ring].
  - rewrite IH by lia. ring.
Qed.

(** A loop whose body adds [g k] to the accumulator computes a sum. *)
Lemma for_loop_sum (n : nat) (step : nat -> R -> R) (g : nat -> R) (a : R) :
  (forall k acc, (k < n)%nat -> step k acc = acc + g k) ->
  for_loop n step a = a + Rsum n g.
Proof.
  induction n as [|n IH]; intros H.
  - rewrite Rsum_O. unfold for_loop. simpl. ring.
  - rewrite for_loop_S, Rsum_S, H, IH by auto. ring.
Qed.

End RealSums.

(** ** Exact arithmetic: the element block and the element residual *)

Section RealAssembly.

Variable disc : Discretization R.
Variable coef : Coefficients R.
Variable prm : Parameters R.
Local Open Scope R_scope.

Lemma get_function_values_sum (c : Cell R) (u : list R) (q : nat) :
  get_function_values disc c u q =
  Rsum (dofs_per_cell disc)
    (fun k => vget u (nth k (get_dof_indices c) O) * shape_value c k q).
Proof.
  unfold get_function_values.
  rewrite for_loop_sum with
    (g := fun k => vget u (nth k (get_dof_indices c) O) * shape_value c k q).
  - real_ops. ring.
  - intros. reflexivity.
Qed.

Lemma get_function_gradients_sum (proj : Tensor1 R -> R) (c : Cell R) (u : list R)
  (q : nat) :
  proj tzero = 0 ->
  (forall a b, proj (tadd a b) = proj a + proj b) ->
  (forall x a, proj (tscale x a) = x * proj a) ->
  proj (get_function_gradients disc c u q) =
  Rsum (dofs_per_cell disc)
    (fun k => vget u (nth k (get_dof_indices c) O) * proj (shape_grad c k q)).
Proof.
  intros H0 Hadd Hscale. unfold get_function_gradients.
  rewrite for_loop_fold with (Inv := fun _ => True) (obs := proj)
    (g := fun k acc =>
            acc + vget u (nth k (get_dof_indices c) O) * proj (shape_grad c k q));
    auto.
  - rewrite for_loop_sum with
      (g := fun k => vget u (nth k (get_dof_indices c) O) * proj (shape_grad c k q)).
    + rewrite H0. ring.
    + intros. reflexivity.
  - intros k s _ _. rewrite Hadd, Hscale. reflexivity.
Qed.

Lemma tx_gradients_sum (c : Cell R) (u : list R) (q : nat) :
  tx (get_function_gradients disc c u q) =
  Rsum (dofs_per_cell disc)
    (fun k => vget u (nth k (get_dof_indices c) O) * tx (shape_grad c k q)).
Proof. apply get_function_gradients_sum; reflexivity. Qed.

Lemma ty_gradients_sum (c : Cell R) (u : list R) (q : nat) :
  ty (get_function_gradients disc c u q) =
  Rsum (dofs_per_cell disc)
    (fun k => vget u (nth k (get_dof_indices c) O) * ty (shape_grad c k q)).
Proof. apply get_function_gradients_sum; reflexivity. Qed.

Lemma tz_gradients_sum (c : Cell R) (u : list R) (q : nat) :
  tz (get_function_gradients disc c u q) =
  Rsum (dofs_per_cell disc)
    (fun k => vget u (nth k (get_dof_indices c) O) * tz (shape_grad c k q)).
Proof. apply get_function_gradients_sum; reflexivity. Qed.

(** The element block is the quadrature sum of the three contributions. *)
Lemma cell_matrix_sum (c : Cell R) (f_time : R) (u u_old : list R) (i j : nat) :
  (i < dofs_per_cell disc)%nat -> (j < dofs_per_cell disc)%nat ->
  mget (cell_matrix_of disc coef prm c f_time u u_old) i j =
  Rsum (n_q disc) (fun q =>
    mass_term prm c q i j + diffusion_term coef c q i j +
    reaction_linearization disc prm c u q i j).
Proof.
  intros Hi Hj. rewrite cell_matrix_entry by assumption.
  rewrite for_loop_sum with
    (g := fun q => mass_term prm c q i j + diffusion_term coef c q i j +
                   reaction_linearization disc prm c u q i j).
  - real_ops. ring.
  - intros q acc _.
    unfold matrix_entry_step, mass_term, diffusion_term, reaction_linearization.
    real_ops. unfold Rdiv. ring.
Qed.

(** The integrand of the negated element residual at a quadrature node. *)
Lemma cell_residual_sum (c : Cell R) (f_time : R) (u u_old : list R) (i : nat) :
  (i < dofs_per_cell disc)%nat ->
  element_lhs disc coef prm c f_time u u_old i =
  Rsum (n_q disc) (fun q =>
    -1 * residual_entry_step disc coef prm c f_time u u_old q i 0).
Proof.
  intros Hi. unfold element_lhs. rewrite cell_residual_entry by assumption.
  rewrite for_loop_sum with
    (g := fun q => residual_entry_step disc coef prm c f_time u u_old q i 0).
  - rewrite Rsum_scal. real_ops. ring.
  - intros q acc _. unfold residual_entry_step. real_ops. ring.
Qed.

Lemma tensor1_eq (a b : Tensor1 R) :
  tx a = tx b -> ty a = ty b -> tz a = tz b -> a = b.
Proof. destruct a, b; simpl; intros; subst; reflexivity. Qed.

Lemma vget_perturb (g k : nat) (h : R) (u : list R) :
  (g < length u)%nat ->
  vget (perturb g h u) k = vget u k + (if (k =? g)%nat then h else 0).
Proof.
  intros Hg. unfold perturb, vadd_at, vget.
  destruct (Nat.eqb_spec k g) as [->|Hne].
  - rewrite nth_update_at_same by exact Hg. reflexivity.
  - rewrite nth_update_at_other by auto. ring.
Qed.

(** Along [e_(dof j)] the coefficient of the local shape function [k] moves
    exactly when [k = j]. *)
Lemma vget_perturb_dof (c : Cell R) (u : list R) (h : R) (j k : nat) :
  cell_well_formed disc (length u) c ->
  (j < dofs_per_cell disc)%nat -> (k < dofs_per_cell disc)%nat ->
  vget (perturb (nth j (get_dof_indices c) O) h u) (nth k (get_dof_indices c) O) =
  vget u (nth k (get_dof_indices c) O) + (if (k =? j)%nat then h else 0).
Proof.
  intros (Hlen & Hnd & Hin) Hj Hk.
  rewrite vget_perturb.
  - f_equal. destruct (Nat.eqb_spec k j) as [->|Hne].
    + rewrite Nat.eqb_refl. reflexivity.
    + destruct (Nat.eqb_spec (nth k (get_dof_indices c) O) (nth j (get_dof_indices c) O))
        as [Heq|]; [|reflexivity].
      exfalso. apply Hne.
      apply (proj1 (NoDup_nth (get_dof_indices c) O) Hnd); auto; lia.
  - rewrite Forall_forall in Hin. apply Hin. apply nth_In. lia.
Qed.

Lemma perturbed_sum (c : Cell R) (u : list R) (h : R) (j : nat) (w : nat -> R) :
  cell_well_formed disc (length u) c ->
  (j < dofs_per_cell disc)%nat ->
  Rsum (dofs_per_cell disc)
    (fun k => vget (perturb (nth j (get_dof_indices c) O) h u)
                (nth k (get_dof_indices c) O) * w k) =
  Rsum (dofs_per_cell disc) (fun k => vget u (nth k (get_dof_indices c) O) * w k)
  + h * w j.
Proof.
  intros Hc Hj.
  rewrite <- (@Rsum_single (dofs_per_cell disc) j h w Hj), <- Rsum_plus.
  apply Rsum_ext. intros k Hk.
  rewrite vget_perturb_dof by assumption. ring.
Qed.

Lemma get_function_values_perturb (c : Cell R) (u : list R) (h : R) (j q : nat) :
  cell_well_formed disc (length u) c ->
  (j < dofs_per_cell disc)%nat ->
  get_function_values disc c (perturb (nth j (get_dof_indices c) O) h u) q =
  get_function_values disc c u q + h * shape_value c j q.
Proof.
  intros Hc Hj. rewrite !get_function_values_sum.
  apply (@perturbed_sum c u h j (fun k => shape_value c k q) Hc Hj).
Qed.

Lemma get_function_gradients_perturb (c : Cell R) (u : list R) (h : R) (j q : nat) :
  cell_well_formed disc (length u) c ->
  (j < dofs_per_cell disc)%nat ->
  get_function_gradients disc c (perturb (nth j (get_dof_indices c) O) h u) q =
  tadd (get_function_gradients disc c u q) (tscale h (shape_grad c j q)).
Proof.
  intros Hc Hj. apply tensor1_eq; simpl.
  - rewrite !tx_gradients_sum.
    apply (@perturbed_sum c u h j (fun k => tx (shape_grad c k q)) Hc Hj).
  - rewrite !ty_gradients_sum.
    apply (@perturbed_sum c u h j (fun k => ty (shape_grad c k q)) Hc Hj).
  - rewrite !tz_gradients_sum.
    apply (@perturbed_sum c u h j (fun k => tz (shape_grad c k q)) Hc Hj).
Qed.

(** The negated element residual is a quadratic polynomial along each
    coordinate direction, with the element block as its linear coefficient. *)
Lemma element_lhs_expansion (c : Cell R) (f_time : R) (u u_old : list R)
  (i j : nat) (h : R) :
  cell_well_formed disc (length u) c ->
  (i < dofs_per_cell disc)%nat -> (j < dofs_per_cell disc)%nat ->
  element_lhs disc coef prm c f_time (perturb (nth j (get_dof_indices c) O) h u) u_old i =
  element_lhs disc coef prm c f_time u u_old i
  + h * mget (cell_matrix_of disc coef prm c f_time u u_old) i j
  + h * h * reaction_curvature disc prm c i j.
Proof.
  intros Hc Hi Hj.
  rewrite !cell_residual_sum, cell_matrix_sum by assumption.
  unfold reaction_curvature.
  rewrite <- !Rsum_scal, <- !Rsum_plus.
  apply Rsum_ext. intros q Hq.
  unfold residual_entry_step, mass_term, diffusion_term, reaction_linearization.
  rewrite get_function_values_perturb, get_function_gradients_perturb by assumption.
  unfold dot, contract, tadd, tscale. simpl. real_ops. unfold Rdiv. ring.
Qed.

Lemma derivable_pt_lim_quadratic (f : R -> R) (a b c : R) :
  (forall h, f h = a + h * b + h * h * c) ->
  derivable_pt_lim f 0 b.
Proof.
  intros Hf eps Heps.
  assert (Hpos : 0 < eps / (Rabs c + 1)).
  { apply Rdiv_lt_0_compat; [exact Heps|]. pose proof (Rabs_pos c). lra. }
  exists (mkposreal _ Hpos). intros h Hh Hlt. simpl in Hlt.
  rewrite !Hf.
  replace ((a + (0 + h) * b + (0 + h) * (0 + h) * c - (a + 0 * b + 0 * 0 * c)) / h - b)
    with (h * c) by (field; exact Hh).
  rewrite Rabs_mult.
  pose proof (Rabs_pos c) as Hc. pose proof (Rabs_pos h) as Hh'.
  apply Rle_lt_trans with (Rabs h * (Rabs c + 1)); [nra|].
  apply Rlt_le_trans with (eps / (Rabs c + 1) * (Rabs c + 1)).
  - apply Rmult_lt_compat_r; lra.
  - right. field. lra.
Qed.

(** C5, in exact arithmetic: the element Jacobian block is symmetric when
    the diffusion tensor is symmetric at every quadrature point of the cell. *)
Theorem cell_matrix_symmetric (c : Cell R) (f_time : R) (u u_old : list R) (i j : nat) :
  (forall q, (q < n_q disc)%nat ->
             tensor_symmetric (d_value coef (quadrature_point c q))) ->
  (i < dofs_per_cell disc)%nat -> (j < dofs_per_cell disc)%nat ->
  mget (cell_matrix_of disc coef prm c f_time u u_old) i j =
  mget (cell_matrix_of disc coef prm c f_time u u_old) j i.
Proof.
  intros Hsym Hi Hj. rewrite !cell_matrix_sum by assumption.
  apply Rsum_ext. intros q Hq.
  destruct (Hsym q Hq) as (H01 & H02 & H12).
  unfold mass_term, diffusion_term, reaction_linearization, dot, contract. simpl.
  rewrite H01, H02, H12. ring.
Qed.

(** C1: the element block is the derivative of the negated element residual
    with respect to the coefficient of the current iterate at the local
    DoF [j], and its reaction part is evaluated at the current iterate. *)
Theorem cell_matrix_is_jacobian (c : Cell R) (f_time : R) (u u_old : list R) (i j : nat) :
  cell_well_formed disc (length u) c ->
  (i < dofs_per_cell disc)%nat -> (j < dofs_per_cell disc)%nat ->
  derivable_pt_lim
    (fun h => element_lhs disc coef prm c f_time
                (perturb (nth j (get_dof_indices c) O) h u) u_old i)
    0 (mget (cell_matrix_of disc coef prm c f_time u u_old) i j)
  /\ mget (cell_matrix_of disc coef prm c f_time u u_old) i j =
     Rsum (n_q disc) (fun q =>
       1 / deltat prm * shape_value c i q * shape_value c j q * JxW c q
       + dot (contract (d_value coef (quadrature_point c q)) (shape_grad c i q))
           (shape_grad c j q) * JxW c q
       + - alpha prm * shape_value c i q *
           (1 - 2 * get_function_values disc c u q) * shape_value c j q * JxW c q).
Proof.
  intros Hc Hi Hj. split.
  - apply derivable_pt_lim_quadratic with
      (a := element_lhs disc coef prm c f_time u u_old i)
      (c := reaction_curvature disc prm c i j).
    intros h. apply element_lhs_expansion; assumption.
  - rewrite cell_matrix_sum by assumption. reflexivity.
Qed.

End RealAssembly.

(** ** While loops *)

Lemma while_loop_inv {S : Type} (Inv : S -> Prop) (cond : S -> bool)
  (body : S -> Outcome S) :
  (forall s s', Inv s -> cond s = true -> body s = Done s' -> Inv s') ->
  forall fuel s s', Inv s -> while_loop fuel cond body s = Done s' ->
                    Inv s' /\ cond s' = false.
Proof.
  intros Hb. induction fuel as [|fuel IH]; intros s s' Hs Hrun; simpl in Hrun.
  - discriminate.
  - destruct (cond s) eqn:Hc.
    + apply bind_Done_inv in Hrun. destruct Hrun as (s1 & H1 & H2).
      apply (IH s1 s'); eauto.
    + inversion Hrun; subst. auto.
Qed.

Lemma while_loop_exit {S : Type} (cond : S -> bool) (body : S -> Outcome S)
  (fuel : nat) (s : S) :
  cond s = false -> while_loop (Datatypes.S fuel) cond body s = Done s.
Proof. intros H. simpl. rewrite H. reflexivity. Qed.

Lemma while_loop_pass {S : Type} (cond : S -> bool) (body : S -> Outcome S)
  (fuel : nat) (s s1 : S) :
  cond s = true -> body s = Done s1 ->
  while_loop (Datatypes.S fuel) cond body s = while_loop fuel cond body s1.
Proof. intros H Hb. simpl. rewrite H, Hb. reflexivity. Qed.

(** ** The drivers, for any arithmetic *)

Section Driver.

Context {F : Type} {num : Num F}.
Variable disc : Discretization F.
Variable coef : Coefficients F.
Variable prm : Parameters F.
Variable la : LinearAlgebra F.
Local Open Scope num_scope.


(** *** Shapes survive the scatter *)

Lemma map_update_at {A B : Type} (g : A -> B) (f : A -> A) (k : nat) (v : list A) :
  (forall x, g (f x) = g x) -> map g (update_at f k v) = map g v.
Proof.
  intros H. revert k. induction v as [|x v IH]; intros [|k]; simpl; auto.
  - rewrite H. reflexivity.
  - rewrite IH. reflexivity.
Qed.

Lemma vzero_vadd_at (k : nat) (x : F) (v : Vector F) : vzero (vadd_at k x v) = vzero v.
Proof. apply map_const_update_at. Qed.

Lemma mzero_madd_at (i j : nat) (x : F) (m : Matrix F) : mzero (madd_at i j x m) = mzero m.
Proof. apply map_update_at. intros row. apply vzero_vadd_at. Qed.

Lemma mzero_matrix_add (dofs : list nat) (cm m : Matrix F) :
  mzero (matrix_add dofs cm m) = mzero m.
Proof.
  unfold matrix_add.
  apply for_loop_miss with (Inv := fun _ => True) (obs := @mzero F num); auto.
  intros i m1 _ _.
  apply for_loop_miss with (Inv := fun _ => True) (obs := @mzero F num); auto.
  intros j m2 _ _. apply mzero_madd_at.
Qed.

Lemma vzero_vector_add (dofs : list nat) (cv v : Vector F) :
  vzero (vector_add dofs cv v) = vzero v.
Proof.
  unfold vector_add.
  apply for_loop_miss with (Inv := fun _ => True) (obs := @vzero F num); auto.
  intros i v1 _ _. apply vzero_vadd_at.
Qed.

Lemma assemble_cells_shape (f_time : F) (u u_old : Vector F) (glob : Matrix F * Vector F) :
  mzero (fst (assemble_cells disc coef prm f_time u u_old glob)) = mzero (fst glob) /\
  vzero (snd (assemble_cells disc coef prm f_time u u_old glob)) = vzero (snd glob).
Proof.
  unfold assemble_cells. revert glob.
  induction (active_cell_iterators disc) as [|c cells IH]; intros glob; simpl.
  - split; reflexivity.
  - destruct (IH (assemble_on_cell disc coef prm f_time u u_old glob c)) as [Hm Hv].
    rewrite Hm, Hv. unfold assemble_on_cell.
    destruct (is_locally_owned c); simpl.
    + rewrite mzero_matrix_add, vzero_vector_add. split; reflexivity.
    + split; reflexivity.
Qed.

Lemma mzero_idem (m : Matrix F) : mzero (mzero m) = mzero m.
Proof.
  unfold mzero, vzero. rewrite map_map. apply map_ext.
  intros row. rewrite map_map. reflexivity.
Qed.

Lemma vzero_idem (v : Vector F) : vzero (vzero v) = vzero v.
Proof. unfold vzero. rewrite map_map. reflexivity. Qed.

(** *** assemble_system *)

(** What [assemble_system] computes, in terms of the members it reads. *)
Lemma assemble_system_spec (s : FisherKolmogorov3D F) :
  let glob :=
    assemble_cells disc coef prm (time s) (solution s) (solution_old s)
      (mzero (jacobian_matrix s), vzero (residual_vector s)) in
  assemble_system disc coef prm s =
  mkFK (time s) (time s) (fst glob) (snd glob) (solution_owned s) (delta_owned s)
    (solution s) (solution_old s) (EvSetTime (time s) :: trace s).
Proof. reflexivity. Qed.

(** The assembled Jacobian and residual are functions of the time, of
    [solution], of [solution_old] and of the shapes of the global structures. *)
Lemma assemble_system_reads (s s2 : FisherKolmogorov3D F) :
  time s2 = time s -> solution s2 = solution s -> solution_old s2 = solution_old s ->
  mzero (jacobian_matrix s2) = mzero (jacobian_matrix s) ->
  vzero (residual_vector s2) = vzero (residual_vector s) ->
  jacobian_matrix (assemble_system disc coef prm s2) =
    jacobian_matrix (assemble_system disc coef prm s) /\
  residual_vector (assemble_system disc coef prm s2) =
    residual_vector (assemble_system disc coef prm s).
Proof.
  intros Ht Hu Ho Hm Hv. rewrite !assemble_system_spec.
  cbn [jacobian_matrix residual_vector]. rewrite Ht, Hu, Ho, Hm, Hv.
  split; reflexivity.
Qed.

(** C7: assembling twice in a row gives the same Jacobian and the same
    residual vector as assembling once, and so does assembling again from
    any object with the same time, [solution] and [solution_old], whatever
    the global structures held before. *)
Theorem assemble_system_idempotent (s : FisherKolmogorov3D F) :
  (jacobian_matrix (assemble_system disc coef prm (assemble_system disc coef prm s)) =
     jacobian_matrix (assemble_system disc coef prm s) /\
   residual_vector (assemble_system disc coef prm (assemble_system disc coef prm s)) =
     residual_vector (assemble_system disc coef prm s)) /\
  (forall s2,
     time s2 = time s -> solution s2 = solution s -> solution_old s2 = solution_old s ->
     mzero (jacobian_matrix s2) = mzero (jacobian_matrix s) ->
     vzero (residual_vector s2) = vzero (residual_vector s) ->
     jacobian_matrix (assemble_system disc coef prm s2) =
       jacobian_matrix (assemble_system disc coef prm s) /\
     residual_vector (assemble_system disc coef prm s2) =
       residual_vector (assemble_system disc coef prm s)).
Proof.
  split; [|intros s2; apply assemble_system_reads].
  apply assemble_system_reads; try reflexivity.
  - rewrite assemble_system_spec. cbn [jacobian_matrix].
    rewrite (proj1 (assemble_cells_shape (time s) (solution s) (solution_old s)
                      (mzero (jacobian_matrix s), vzero (residual_vector s)))).
    apply mzero_idem.
  - rewrite assemble_system_spec. cbn [residual_vector].
    rewrite (proj2 (assemble_cells_shape (time s) (solution s) (solution_old s)
                      (mzero (jacobian_matrix s), vzero (residual_vector s)))).
    apply vzero_idem.
Qed.

(** *** solve_linear_system and the Newton update *)

Lemma solve_linear_system_Done (s s' : FisherKolmogorov3D F) :
  solve_linear_system prm la s = Done s' ->
  exists x k,
    cg_solve la (max_cg_iterations prm)
      (cg_tolerance_factor prm * l2_norm la (residual_vector s))
      (jacobian_matrix s) (delta_owned s) (residual_vector s) = Some (x, k) /\
    s' = emit (EvCGIterations k) (set_delta_owned x s).
Proof.
  unfold solve_linear_system. intros H.
  destruct (cg_solve la _ _ _ _ _) as [[x k]|]; [|discriminate].
  inversion H; subst. eauto.
Qed.

Lemma newton_update_Done (s s' : FisherKolmogorov3D F) :
  newton_update prm la s = Done s' ->
  exists x k,
    cg_solve la (max_cg_iterations prm)
      (cg_tolerance_factor prm * l2_norm la (residual_vector s))
      (jacobian_matrix s) (delta_owned s) (residual_vector s) = Some (x, k) /\
    s' = mkFK (time s) (forcing_term_time s) (jacobian_matrix s) (residual_vector s)
           (vec_add (solution_owned s) x) x (vec_add (solution_owned s) x)
           (solution_old s) (EvCGIterations k :: trace s).
Proof.
  unfold newton_update. intros H.
  apply bind_Done_inv in H. destruct H as (s1 & H1 & H2).
  apply solve_linear_system_Done in H1. destruct H1 as (x & k & Hcg & ->).
  inversion H2; subst. exists x, k. split; [exact Hcg|reflexivity].
Qed.

(** The pass of the Newton loop when the fresh residual is within the
    tolerance. *)
Lemma newton_body_below (w : NewtonLoop F) :
  let s := assemble_system disc coef prm (newton_self w) in
  let rn := l2_norm la (residual_vector s) in
  (newton_tolerance prm <? rn) = false ->
  newton_body disc coef prm la w =
  Done (mkNewtonLoop
          (emit EvBelowTolerance (emit (EvNewtonIteration (n_iter w) rn) s))
          (S (n_iter w)) rn).
Proof.
  intros s rn H. unfold newton_body. fold s. cbn [emit residual_vector].
  fold rn. rewrite H. reflexivity.
Qed.

(** The pass of the Newton loop when the fresh residual is above it. *)
Lemma newton_body_above (w : NewtonLoop F) :
  let s := assemble_system disc coef prm (newton_self w) in
  let rn := l2_norm la (residual_vector s) in
  (newton_tolerance prm <? rn) = true ->
  newton_body disc coef prm la w =
  bind (newton_update prm la (emit (EvNewtonIteration (n_iter w) rn) s))
    (fun s' => Done (mkNewtonLoop s' (S (n_iter w)) rn)).
Proof.
  intros s rn H. unfold newton_body. fold s. cbn [emit residual_vector].
  fold rn. rewrite H. reflexivity.
Qed.

(** What any completed pass leaves behind. *)
Lemma newton_body_frame (w w' : NewtonLoop F) :
  newton_body disc coef prm la w = Done w' ->
  let s := newton_self w in
  let s' := newton_self w' in
  n_iter w' = S (n_iter w) /\
  residual_norm w' = l2_norm la (residual_vector (assemble_system disc coef prm s)) /\
  time s' = time s /\
  solution_old s' = solution_old s /\
  forcing_term_time s' = time s /\
  exists e, (e = EvBelowTolerance \/ exists k, e = EvCGIterations k) /\
            trace s' =
            [e; EvNewtonIteration (n_iter w) (residual_norm w'); EvSetTime (time s)]
            ++ trace s.
Proof.
  intros H s s'. subst s s'.
  destruct (newton_tolerance prm <?
            l2_norm la (residual_vector (assemble_system disc coef prm (newton_self w)))) eqn:Htol.
  - rewrite newton_body_above in H by exact Htol.
    apply bind_Done_inv in H. destruct H as (s1 & H1 & H2).
    apply newton_update_Done in H1. destruct H1 as (x & k & _ & ->).
    inversion H2; subst. cbn. repeat split; eauto.
  - rewrite newton_body_below in H by exact Htol.
    inversion H; subst. cbn. repeat split; eauto.
Qed.

(** C2: the convergence test comes before the solve.  When the norm of the
    residual just assembled is not above the tolerance the pass returns with
    [solution_owned], [solution] and [delta_owned] as they were, logs no
    linear solve, and the loop stops; when it is above, the pass is the
    linear solve followed by [solution_owned += delta_owned] and the refresh
    of [solution]. *)
Theorem newton_convergence_test (w : NewtonLoop F) :
  let s := newton_self w in
  let s1 := assemble_system disc coef prm s in
  let rn := l2_norm la (residual_vector s1) in
  ((newton_tolerance prm <? rn) = false ->
   exists w',
     newton_body disc coef prm la w = Done w' /\
     solution_owned (newton_self w') = solution_owned s /\
     solution (newton_self w') = solution s /\
     delta_owned (newton_self w') = delta_owned s /\
     trace (newton_self w') =
       [EvBelowTolerance; EvNewtonIteration (n_iter w) rn; EvSetTime (time s)]
       ++ trace s /\
     newton_cond prm w' = false /\
     forall fuel, while_loop (S fuel) (newton_cond prm) (newton_body disc coef prm la) w' = Done w')
  /\
  ((newton_tolerance prm <? rn) = true ->
   forall w', newton_body disc coef prm la w = Done w' ->
     exists x k,
       cg_solve la (max_cg_iterations prm) (cg_tolerance_factor prm * rn)
         (jacobian_matrix s1) (delta_owned s) (residual_vector s1) = Some (x, k) /\
       delta_owned (newton_self w') = x /\
       solution_owned (newton_self w') = vec_add (solution_owned s) x /\
       solution (newton_self w') = solution_owned (newton_self w') /\
       trace (newton_self w') =
         [EvCGIterations k; EvNewtonIteration (n_iter w) rn; EvSetTime (time s)]
         ++ trace s).
Proof.
  intros s s1 rn. split; intros Htol.
  - eexists. split; [apply newton_body_below; exact Htol|].
    assert (Hc : newton_cond prm (mkNewtonLoop
               (emit EvBelowTolerance (emit (EvNewtonIteration (n_iter w) rn) s1))
               (S (n_iter w)) rn) = false).
    { unfold newton_cond. cbn [residual_norm]. fold s s1 rn.
      rewrite Htol. apply andb_false_r. }
    cbn. repeat split; try reflexivity.
    + exact Hc.
    + intros fuel. apply while_loop_exit. exact Hc.
  - intros w' H. rewrite newton_body_above in H by exact Htol.
    apply bind_Done_inv in H. destruct H as (s2 & H1 & H2).
    apply newton_update_Done in H1. destruct H1 as (x & k & Hcg & ->).
    inversion H2; subst. exists x, k. cbn. cbn in Hcg. repeat split; auto.
Qed.

(** *** The Newton loop *)

Lemma while_loop_reaches (fuel : nat) (w w' : NewtonLoop F) :
  while_loop fuel (newton_cond prm) (newton_body disc coef prm la) w = Done w' ->
  newton_reaches disc coef prm la w w'.
Proof.
  revert w. induction fuel as [|fuel IH]; intros w H; simpl in H; [discriminate|].
  destruct (newton_cond prm w) eqn:Hc.
  - apply bind_Done_inv in H. destruct H as (w1 & H1 & H2).
    eapply newton_reaches_step; eauto.
  - inversion H; subst. constructor.
Qed.

(** Along the Newton loop the time and [solution_old] stay put, and the
    forcing provider is only ever set to that time. *)
Lemma newton_reaches_frame (w w' : NewtonLoop F) :
  newton_reaches disc coef prm la w w' ->
  time (newton_self w') = time (newton_self w) /\
  solution_old (newton_self w') = solution_old (newton_self w) /\
  (forcing_term_time (newton_self w') = forcing_term_time (newton_self w) \/
   forcing_term_time (newton_self w') = time (newton_self w)) /\
  exists evs, trace (newton_self w') = evs ++ trace (newton_self w) /\
              Forall (sets_time_to (time (newton_self w))) evs.
Proof.
  induction 1 as [w|w w1 w' Hc Hb Hr IH].
  - repeat split; auto. exists []. split; [reflexivity|constructor].
  - apply newton_body_frame in Hb.
    destruct Hb as (_ & _ & Ht & Ho & Hf & e & He & Htr).
    destruct IH as (Ht' & Ho' & Hf' & evs & Htr' & Hall).
    rewrite Ht in *. rewrite Ho in *. repeat split; auto.
    + right. destruct Hf' as [Hf'|Hf']; congruence.
    + exists (evs ++ [e; EvNewtonIteration (n_iter w) (residual_norm w1);
                      EvSetTime (time (newton_self w))]).
      rewrite Htr', Htr, app_assoc. split; [reflexivity|].
      apply Forall_app. split; [exact Hall|].
      repeat constructor.
      destruct He as [->|[k ->]]; exact I.
Qed.

Lemma newton_body_not_OutOfFuel (w : NewtonLoop F) : newton_body disc coef prm la w <> OutOfFuel.
Proof.
  unfold newton_body, newton_update, solve_linear_system.
  destruct (newton_tolerance prm <? _); [|discriminate].
  cbn [emit residual_vector jacobian_matrix delta_owned].
  destruct (cg_solve la _ _ _ _ _) as [[x k]|]; discriminate.
Qed.

Lemma newton_body_total (w : NewtonLoop F) :
  cg_always_converges la -> exists w', newton_body disc coef prm la w = Done w'.
Proof.
  intros Hcg.
  unfold newton_body, newton_update, solve_linear_system.
  destruct (newton_tolerance prm <? _); [|eexists; reflexivity].
  cbn [emit residual_vector jacobian_matrix delta_owned].
  destruct (cg_solve la _ _ _ _ _) as [[x k]|] eqn:H; [eexists; reflexivity|].
  exfalso. exact (Hcg _ _ _ _ _ H).
Qed.

(** The fuel given to the Newton loop is never used up. *)
Lemma newton_loop_fuel (fuel : nat) (w : NewtonLoop F) :
  max_newton_iterations prm - n_iter w < fuel ->
  while_loop fuel (newton_cond prm) (newton_body disc coef prm la) w <> OutOfFuel.
Proof.
  revert w. induction fuel as [|fuel IH]; intros w Hw; [lia|]. simpl.
  destruct (newton_cond prm w) eqn:Hc; [|discriminate].
  destruct (newton_body disc coef prm la w) as [w1| |] eqn:Hb; simpl.
  - apply IH. apply newton_body_frame in Hb. destruct Hb as (Hn & _).
    unfold newton_cond in Hc. apply andb_prop in Hc. destruct Hc as [Hc _].
    apply Nat.ltb_lt in Hc. lia.
  - discriminate.
  - exfalso. exact (newton_body_not_OutOfFuel w Hb).
Qed.

Lemma solve_newton_not_OutOfFuel (s : FisherKolmogorov3D F) :
  solve_newton disc coef prm la s <> OutOfFuel.
Proof.
  unfold solve_newton, newton_iterations.
  pose proof (@newton_loop_fuel (S (max_newton_iterations prm)) (newton_init prm s)) as H.
  destruct (while_loop _ _ _ _); simpl; try discriminate.
  intros _. apply H; [simpl; lia|reflexivity].
Qed.

Lemma newton_loop_total (fuel : nat) (w : NewtonLoop F) :
  cg_always_converges la ->
  max_newton_iterations prm - n_iter w < fuel ->
  exists w', while_loop fuel (newton_cond prm) (newton_body disc coef prm la) w = Done w'.
Proof.
  intros Hcg. revert w. induction fuel as [|fuel IH]; intros w Hw; [lia|]. simpl.
  destruct (newton_cond prm w) eqn:Hc; [|eexists; reflexivity].
  destruct (newton_body_total w Hcg) as (w1 & Hb). rewrite Hb. simpl.
  apply IH. apply newton_body_frame in Hb. destruct Hb as (Hn & _).
  unfold newton_cond in Hc. apply andb_prop in Hc. destruct Hc as [Hc _].
  apply Nat.ltb_lt in Hc. lia.
Qed.

Lemma solve_newton_total (s : FisherKolmogorov3D F) :
  cg_always_converges la -> exists s', solve_newton disc coef prm la s = Done s'.
Proof.
  intros Hcg. unfold solve_newton, newton_iterations.
  destruct (@newton_loop_total (S (max_newton_iterations prm)) (newton_init prm s) Hcg)
    as (w' & Hw); [simpl; lia|].
  rewrite Hw. simpl. eauto.
Qed.

Lemma solve_newton_reaches (s s' : FisherKolmogorov3D F) :
  solve_newton disc coef prm la s = Done s' ->
  exists w', newton_reaches disc coef prm la (newton_init prm s) w' /\ newton_self w' = s'.
Proof.
  unfold solve_newton, newton_iterations. intros H.
  apply bind_Done_inv in H. destruct H as (w' & Hw & Hd).
  inversion Hd; subst. exists w'. split; [|reflexivity].
  eapply while_loop_reaches; eauto.
Qed.

(** C8, as the code has it: [solution_old] is written by no part of a
    timestep's Newton solve, so it stays the snapshot of [solution] taken
    when the timestep began; the time stays put as well, and besides the
    five linear-algebra members the solve sets the forcing provider's time,
    to the current time. *)
Theorem solution_old_frame :
  (forall s, solution_old (assemble_system disc coef prm s) = solution_old s) /\
  (forall s s', solve_linear_system prm la s = Done s' -> solution_old s' = solution_old s) /\
  (forall w w', newton_reaches disc coef prm la w w' ->
     solution_old (newton_self w') = solution_old (newton_self w)) /\
  (forall s s', solve_newton disc coef prm la s = Done s' ->
     solution_old s' = solution_old s /\
     time s' = time s /\
     (forcing_term_time s' = forcing_term_time s \/ forcing_term_time s' = time s)) /\
  (forall w w', time_body disc coef prm la w = Done w' ->
     solution_old (time_self w') = solution (time_self w)).
Proof.
  split; [reflexivity|]. split.
  { intros s s' H. apply solve_linear_system_Done in H.
    destruct H as (x & k & _ & ->). reflexivity. }
  split.
  { intros w w' H. apply newton_reaches_frame in H. tauto. }
  split.
  { intros s s' H. apply solve_newton_reaches in H. destruct H as (w' & Hr & <-).
    apply newton_reaches_frame in Hr. simpl in Hr. tauto. }
  intros w w' H. unfold time_body in H.
  apply bind_Done_inv in H. destruct H as (s1 & Hs & Hd).
  inversion Hd; subst. clear Hd.
  apply solve_newton_reaches in Hs. destruct Hs as (w1 & Hr & <-).
  apply newton_reaches_frame in Hr. simpl in Hr.
  destruct Hr as (_ & Ho & _). simpl. exact Ho.
Qed.

(** The residual vector after the loop over cells: the element residuals of
    the locally owned cells, added at their DoF indices one cell after the
    other. *)
Lemma assemble_cells_residual_scatter (cells : list (Cell F)) (f_time : F)
  (u u_old : Vector F) (glob : Matrix F * Vector F) :
  snd (fold_left (assemble_on_cell disc coef prm f_time u u_old) cells glob) =
  fold_left
    (fun v c =>
       vector_add (get_dof_indices c) (cell_residual_of disc coef prm c f_time u u_old) v)
    (filter (@is_locally_owned F) cells) (snd glob).
Proof.
  revert glob. induction cells as [|c cells IH]; intros glob; [reflexivity|].
  cbn [fold_left filter]. rewrite IH. unfold assemble_on_cell.
  destruct (is_locally_owned c); reflexivity.
Qed.

(** C9: within a timestep every forcing contribution to the residual is
    [f(x_q, t_new)] with [t_new = t + deltat]: the time is advanced before
    the Newton solve and no Newton pass changes it; each assembly sets the
    forcing provider to it once, before the cells; the residual vector it
    builds is the scatter of the element residuals of the owned cells; and
    the entry [i] of each of these accumulates, node after node, the four
    updates of the source, the last of which adds
    [forcing_term.value(x_q) * phi_i(q) * JxW(q)] with the forcing at
    [t_new]. *)
Theorem forcing_term_at_end_of_step (w : TimeLoop F) :
  let s0 := time_self (begin_time_step prm w) in
  let t_new := time (time_self w) + deltat prm in
  time s0 = t_new /\
  (forall w1, newton_reaches disc coef prm la (newton_init prm s0) w1 ->
     let s1 := newton_self w1 in
     let u := solution s1 in
     let u_old := solution_old s1 in
     let glob :=
       assemble_cells disc coef prm t_new u u_old
         (mzero (jacobian_matrix s1), vzero (residual_vector s1)) in
     time s1 = t_new /\
     assemble_system disc coef prm s1 =
     mkFK t_new t_new (fst glob) (snd glob) (solution_owned s1) (delta_owned s1)
       u u_old (EvSetTime t_new :: trace s1) /\
     residual_vector (assemble_system disc coef prm s1) =
     fold_left
       (fun v c =>
          vector_add (get_dof_indices c) (cell_residual_of disc coef prm c t_new u u_old) v)
       (owned_cells disc) (vzero (residual_vector s1)) /\
     forall c i, (i < dofs_per_cell disc)%nat ->
       vget (cell_residual_of disc coef prm c t_new u u_old) i =
       for_loop (n_q disc)
         (fun q cell_residual_i =>
            cell_residual_i
            - (get_function_values disc c u q - get_function_values disc c u_old q) /
                deltat prm * shape_value c i q * JxW c q
            - dot (contract (d_value coef (quadrature_point c q)) (shape_grad c i q))
                (get_function_gradients disc c u q) * JxW c q
            + alpha prm * get_function_values disc c u q *
                (Fone - get_function_values disc c u q) * shape_value c i q * JxW c q
            + forcing_term_value coef t_new (quadrature_point c q) *
                shape_value c i q * JxW c q)
         Fzero) /\
  (forall w', time_body disc coef prm la w = Done w' ->
     time (time_self w') = t_new /\
     exists evs, trace (time_self w') = evs ++ trace (time_self w) /\
                 Forall (sets_time_to t_new) evs).
Proof.
  intros s0 t_new. split; [reflexivity|]. split.
  - intros w1 Hr s1 u u_old glob. apply newton_reaches_frame in Hr.
    destruct Hr as (Ht & _). simpl in Ht. fold s1 in Ht.
    assert (Hspec : assemble_system disc coef prm s1 =
              mkFK t_new t_new (fst glob) (snd glob) (solution_owned s1)
                (delta_owned s1) u u_old (EvSetTime t_new :: trace s1)).
    { rewrite assemble_system_spec. subst glob u u_old. rewrite Ht. reflexivity. }
    split; [exact Ht|]. split; [exact Hspec|]. split.
    + rewrite Hspec. cbn [residual_vector]. subst glob. unfold assemble_cells.
      rewrite assemble_cells_residual_scatter. reflexivity.
    + intros c i Hi. rewrite cell_residual_entry by exact Hi. reflexivity.
  - intros w' H. unfold time_body in H.
    apply bind_Done_inv in H. destruct H as (s1 & Hs & Hd).
    inversion Hd; subst. clear Hd.
    apply solve_newton_reaches in Hs. destruct Hs as (w1 & Hr & <-).
    apply newton_reaches_frame in Hr. simpl in Hr.
    destruct Hr as (Ht & _ & _ & evs & Htr & Hall). simpl.
    split; [exact Ht|].
    exists (EvOutput (S (time_step w)) (solution (newton_self w1)) :: evs ++
            [EvTimeStep (S (time_step w)) t_new]).
    split.
    + rewrite Htr. simpl. rewrite <- app_assoc. reflexivity.
    + constructor; [exact I|]. apply Forall_app. split; [exact Hall|].
      repeat constructor.
Qed.

(** C6: a Newton solve that stops at the iteration cap with the residual
    still above the tolerance returns like any other; the timestep writes its
    output file, and the next timestep starts from the last iterate. *)
Theorem newton_nonconvergence_is_silent (w : TimeLoop F) (wn : NewtonLoop F) :
  newton_iterations disc coef prm la (time_self (begin_time_step prm w)) = Done wn ->
  n_iter wn = max_newton_iterations prm ->
  (newton_tolerance prm <? residual_norm wn) = true ->
  let n := S (time_step w) in
  let s_last := newton_self wn in
  let w_next := mkTimeLoop (output n s_last) n in
  solve_newton disc coef prm la (time_self (begin_time_step prm w)) = Done s_last /\
  time_body disc coef prm la w = Done w_next /\
  trace (time_self w_next) = EvOutput n (solution s_last) :: trace s_last /\
  solution (time_self w_next) = solution s_last /\
  (forall fuel, time_cond prm w = true ->
     time_loop disc coef prm la (S fuel) w = time_loop disc coef prm la fuel w_next) /\
  solution_old (time_self (begin_time_step prm w_next)) = solution s_last /\
  solution (time_self (begin_time_step prm w_next)) = solution s_last.
Proof.
  intros Hrun _ _ n s_last w_next.
  assert (Hs : solve_newton disc coef prm la (time_self (begin_time_step prm w)) = Done s_last).
  { unfold solve_newton. rewrite Hrun. reflexivity. }
  assert (Hb : time_body disc coef prm la w = Done w_next).
  { unfold time_body. rewrite Hs. reflexivity. }
  repeat split; auto.
  intros fuel Hc. unfold time_loop. apply while_loop_pass; assumption.
Qed.

End Driver.

(** ** Exact arithmetic: the time march *)

Lemma Fltb_R_true (x y : R) : (x <? y)%num = true <-> (x < y)%R.
Proof.
  cbn [Fltb Num_R]. destruct (Rlt_dec x y); split; intros; auto; try discriminate;
    try contradiction.
Qed.

Lemma Fltb_R_false (x y : R) : (x <? y)%num = false <-> (y <= x)%R.
Proof.
  cbn [Fltb Num_R]. destruct (Rlt_dec x y); split; intros; auto; try discriminate; lra.
Qed.

Section RealDriver.

Variable disc : Discretization R.
Variable coef : Coefficients R.
Variable prm : Parameters R.
Variable la : LinearAlgebra R.
Local Open Scope R_scope.

Lemma time_cond_true (w : TimeLoop R) :
  time_cond prm w = true <-> time (time_self w) < T prm - deltat prm / 2.
Proof.
  unfold time_cond. rewrite Fltb_R_true. real_ops.
  replace (1 / (1 + 1) * deltat prm) with (deltat prm / 2) by lra. reflexivity.
Qed.

Lemma time_cond_false (w : TimeLoop R) :
  time_cond prm w = false <-> T prm - deltat prm / 2 <= time (time_self w).
Proof.
  unfold time_cond. rewrite Fltb_R_false. real_ops.
  replace (1 / (1 + 1) * deltat prm) with (deltat prm / 2) by lra. reflexivity.
Qed.


(** Some number of steps always gets past [T - deltat/2]. *)
Lemma steps_reach_T : 0 < deltat prm -> exists m : nat, T prm <= INR m * deltat prm.
Proof.
  intros Hd.
  destruct (archimed (Rabs (T prm / deltat prm))) as [Hup _].
  pose proof (Rabs_pos (T prm / deltat prm)) as Hpos.
  pose proof (Rle_abs (T prm / deltat prm)) as Habs.
  assert (Hz : (0 <= up (Rabs (T prm / deltat prm)))%Z).
  { apply le_IZR. simpl. lra. }
  exists (Z.to_nat (up (Rabs (T prm / deltat prm)))).
  rewrite INR_IZR_INZ, Z2Nat.id by exact Hz.
  apply Rmult_le_reg_r with (/ deltat prm).
  - apply Rinv_0_lt_compat. exact Hd.
  - rewrite Rmult_assoc, Rinv_r by lra. unfold Rdiv in *. lra.
Qed.

Lemma time_body_total (w : TimeLoop R) :
  cg_always_converges la ->
  exists w1, time_body disc coef prm la w = Done w1 /\
             time (time_self w1) = time (time_self w) + deltat prm /\
             time_step w1 = S (time_step w).
Proof.
  intros Hcg. unfold time_body.
  destruct (solve_newton_total disc coef prm (time_self (begin_time_step prm w)) Hcg)
    as (s1 & Hs).
  rewrite Hs. simpl. eexists. split; [reflexivity|]. simpl. split; [|reflexivity].
  apply solve_newton_reaches in Hs. destruct Hs as (w1 & Hr & <-).
  apply newton_reaches_frame in Hr. destruct Hr as (Ht & _). exact Ht.
Qed.

(** C10: when [T < deltat/2], [solve] applies the initial condition, writes
    the step-0 output and returns without a single timestep. *)
Theorem solve_without_timestep (s : FisherKolmogorov3D R) (fuel : nat) :
  T prm < deltat prm / 2 ->
  let u0 := interpolate disc (u_0_value coef) in
  solve disc coef prm la (S fuel) s =
  Done (mkFK 0 (forcing_term_time s) (jacobian_matrix s) (residual_vector s)
          u0 (delta_owned s) u0 (solution_old s)
          (EvOutput 0 u0 :: EvInitialCondition :: trace s)).
Proof.
  intros HT u0. unfold solve, time_loop.
  rewrite while_loop_exit; [reflexivity|].
  apply time_cond_false. simpl. real_ops. lra.
Qed.

End RealDriver.

(** ** Exact arithmetic: the constant equilibria *)

Unset Implicit Arguments.

Section RealEquilibrium.

Variable disc : Discretization R.
Variable coef : Coefficients R.
Variable prm : Parameters R.
Variable cg : nat -> R -> list (list R) -> list R -> list R -> option (list R * nat).
Local Open Scope R_scope.

Let la : LinearAlgebra R := LinearAlgebra_R cg.

















End RealEquilibrium.

(** ** The theorems at work on the sample configuration *)

Ltac sample_real :=
  unfold Rsum, for_loop, Fquarter, Fsixth, Ffour, Fminus_one, Fhalf, Ftwo;
  cbn -[Rplus Rminus Rmult Rdiv Rinv IZR Rlt Rle].

Lemma two_tetrahedra_well_formed : mesh_well_formed (@two_tetrahedra R Num_R).
Proof.
  intros c [<-|[<-|[]]]; repeat split; simpl;
    repeat constructor; simpl; intuition (try discriminate; try lia).
Defined.


Lemma cell_matrix_is_jacobian_witness :
  let disc := @two_tetrahedra R Num_R in
  let prm := sample_parameters_R 1 in
  let u := [1; 0; 0; 0; 0]%R in
  cell_well_formed disc (length u) cell_right /\
  (0 < dofs_per_cell disc)%nat /\ (1 < dofs_per_cell disc)%nat /\
  derivable_pt_lim
    (fun h => element_lhs disc equilibrium_coefficients_R prm cell_right 0%R
                (perturb (nth 1 (get_dof_indices cell_right) O) h u) u 0)
    0 (mget (cell_matrix_of disc equilibrium_coefficients_R prm cell_right 0%R u u) 0 1).
Proof.
  intros disc prm u.
  assert (Hwf : cell_well_formed disc (length u) cell_right).
  { apply two_tetrahedra_well_formed. left. reflexivity. }
  assert (H0 : (0 < dofs_per_cell disc)%nat) by (simpl; lia).
  assert (H1 : (1 < dofs_per_cell disc)%nat) by (simpl; lia).
  repeat split; try assumption; try apply Hwf.
  exact (proj1 (@cell_matrix_is_jacobian disc equilibrium_coefficients_R prm cell_right
                  0%R u u 0%nat 1%nat Hwf H0 H1)).
Defined.

Lemma cell_matrix_symmetric_witness :
  let disc := @two_tetrahedra R Num_R in
  let prm := sample_parameters_R 1 in
  let u := [1; 0; 0; 0; 0]%R in
  (forall q, (q < n_q disc)%nat ->
     tensor_symmetric (d_value equilibrium_coefficients_R (quadrature_point cell_right q))) /\
  mget (cell_matrix_of disc equilibrium_coefficients_R prm cell_right 0%R u u) 0 1 =
  mget (cell_matrix_of disc equilibrium_coefficients_R prm cell_right 0%R u u) 1 0.
Proof.
  intros disc prm u.
  assert (Hsym : forall q, (q < n_q disc)%nat ->
            tensor_symmetric (d_value equilibrium_coefficients_R (quadrature_point cell_right q))).
  { intros q _. repeat split. }
  split; [exact Hsym|].
  apply (@cell_matrix_symmetric disc equilibrium_coefficients_R prm cell_right 0%R u u
           0%nat 1%nat Hsym); simpl; lia.
Defined.

Lemma diagonal_solve_always_converges :
  cg_always_converges LinearAlgebra_R_diagonal.
Proof. intros max_iter tol m x0 b. discriminate. Defined.

Lemma solve_without_timestep_witness :
  let disc := @two_tetrahedra R Num_R in
  let prm := sample_parameters_R 0 in
  let s := after_setup 5 in
  let u0 := interpolate disc (u_0_value equilibrium_coefficients_R) in
  (T prm < deltat prm / 2)%R /\
  solve disc equilibrium_coefficients_R prm LinearAlgebra_R_diagonal 1 s =
  Done (mkFK 0%R (forcing_term_time s) (jacobian_matrix s) (residual_vector s)
          u0 (delta_owned s) u0 (solution_old s)
          (EvOutput 0 u0 :: EvInitialCondition :: trace s)).
Proof.
  intros disc prm s u0.
  assert (HT : (T prm < deltat prm / 2)%R) by (sample_real; lra).
  split; [exact HT|].
  exact (@solve_without_timestep disc equilibrium_coefficients_R prm
           LinearAlgebra_R_diagonal s 0%nat HT).
Defined.


(** The first Newton pass of the run at the constant 1, in binary64: the
    residual norm is below the tolerance. *)
Lemma newton_convergence_test_witness :
  let w := newton_init equilibrium_parameters_float first_step_float in
  (newton_tolerance equilibrium_parameters_float <?
   l2_norm LinearAlgebra_float
     (residual_vector
        (assemble_system two_tetrahedra equilibrium_coefficients_float
           equilibrium_parameters_float (newton_self w))))%num = false /\
  exists w',
    newton_body two_tetrahedra equilibrium_coefficients_float
      equilibrium_parameters_float LinearAlgebra_float w = Done w' /\
    solution_owned (newton_self w') = solution_owned (newton_self w) /\
    solution (newton_self w') = solution (newton_self w) /\
    newton_cond equilibrium_parameters_float w' = false.
Proof.
  intros w.
  assert (Hbelow :
    (newton_tolerance equilibrium_parameters_float <?
     l2_norm LinearAlgebra_float
       (residual_vector
          (assemble_system two_tetrahedra equilibrium_coefficients_float
             equilibrium_parameters_float (newton_self w))))%num = false).
  { vm_compute. reflexivity. }
  split; [exact Hbelow|].
  destruct (proj1 (@newton_convergence_test PrimFloat.float Num_float two_tetrahedra
                     equilibrium_coefficients_float equilibrium_parameters_float
                     LinearAlgebra_float w) Hbelow)
    as (w' & Hb & Hso & Hsol & _ & _ & Hc & _).
  exists w'. repeat split; assumption.
Defined.

(** A Newton solve capped at one pass, in binary64: it ends at the cap with
    the residual above the tolerance. *)
Lemma newton_nonconvergence_is_silent_witness :
  let w := capped_start_float in
  let wn := capped_newton_end_float in
  let n := S (time_step w) in
  newton_iterations two_tetrahedra forced_coefficients_float capped_parameters_float
    LinearAlgebra_float (time_self (begin_time_step capped_parameters_float w)) = Done wn /\
  n_iter wn = max_newton_iterations capped_parameters_float /\
  (newton_tolerance capped_parameters_float <? residual_norm wn)%num = true /\
  time_body two_tetrahedra forced_coefficients_float capped_parameters_float
    LinearAlgebra_float w = Done (mkTimeLoop (output n (newton_self wn)) n).
Proof.
  intros w wn n.
  assert (Hrun :
    newton_iterations two_tetrahedra forced_coefficients_float capped_parameters_float
      LinearAlgebra_float (time_self (begin_time_step capped_parameters_float w)) = Done wn).
  { vm_compute. reflexivity. }
  assert (Hcap : n_iter wn = max_newton_iterations capped_parameters_float).
  { vm_compute. reflexivity. }
  assert (Habove : (newton_tolerance capped_parameters_float <? residual_norm wn)%num = true).
  { vm_compute. reflexivity. }
  split; [exact Hrun|]. split; [exact Hcap|]. split; [exact Habove|].
  exact (proj1 (proj2 (@newton_nonconvergence_is_silent PrimFloat.float Num_float
                         two_tetrahedra forced_coefficients_float capped_parameters_float
                         LinearAlgebra_float w wn Hrun Hcap Habove))).
Defined.

Lemma first_newton_float_returns :
  solve_newton two_tetrahedra equilibrium_coefficients_float equilibrium_parameters_float
    LinearAlgebra_float first_step_float = Done after_first_newton_float.
Proof. vm_compute. reflexivity. Qed.

(** C8, read to the letter: besides the five listed members the Newton
    solve writes the forcing provider's time, here from 0 to 0.5. *)
Lemma newton_writes_forcing_term_time :
  ~ newton_writes_only_listed_members two_tetrahedra equilibrium_coefficients_float
      equilibrium_parameters_float LinearAlgebra_float.
Proof.
  intros H.
  destruct (H first_step_float after_first_newton_float first_newton_float_returns)
    as (_ & Hf & _).
  apply (f_equal (fun x => PrimFloat.eqb x 0%float)) in Hf.
  vm_compute in Hf. discriminate Hf.
Qed.

(** The sample run at the constant 1 in binary64: two timesteps, no linear
    solve, the solution still at 1; the forcing provider's time moved by the
    first Newton solve. *)
Example equilibrium_run_float :
  match solve two_tetrahedra equilibrium_coefficients_float equilibrium_parameters_float
          LinearAlgebra_float 3 (after_setup 5) with
  | Done s =>
      PrimFloat.eqb (time s) 1%float = true /\
      solution s = [1; 1; 1; 1; 1]%float /\
      length (trace s) = 12%nat
  | _ => False
  end /\
  forcing_term_time first_step_float = 0%float /\
  forcing_term_time after_first_newton_float = 0.5%float.
Proof. vm_compute. auto. Qed.

(** ** The arithmetic of the statements *)

(** An entry of the element block on the sample mesh, in exact arithmetic:
    mass 1/48, diffusion -1/6 and reaction -1/192 at [u(q) = 1/4]. *)
Example sample_cell_matrix_entry :
  mget (cell_matrix_of (@two_tetrahedra R Num_R) equilibrium_coefficients_R
          (sample_parameters_R 1) cell_right 0%R [1; 0; 0; 0; 0]%R [0; 0; 0; 0; 0]%R)
    0 1 = (- 29 / 192)%R.
Proof.
  rewrite cell_matrix_sum by (simpl; lia).
  unfold mass_term, diffusion_term, reaction_linearization.
  unfold get_function_values, dot, contract, vget.
  sample_real. lra.
Qed.

(** C5, read to the letter in the arithmetic of [double]: in binary64 the
    operands of the diffusion product meet in a different order in the
    entries [(i, j)] and [(j, i)], and on the tetrahedron below, with a
    symmetric tensor, the entries (0, 1) and (1, 0) differ. *)
Lemma cell_matrix_binary64_asymmetric :
  ~ element_block_symmetric skew_mesh anisotropic_coefficients default_parameters_float
      skew_cell.
Proof.
  intros H.
  assert (Hsym : forall q, (q < n_q skew_mesh)%nat ->
            tensor_symmetric
              (d_value anisotropic_coefficients (quadrature_point skew_cell q))).
  { intros q _. repeat split. }
  specialize (H Hsym 0%float [1; 1; 1; 1]%float [1; 1; 1; 1]%float 0%nat 1%nat).
  assert (H01 : (0 < dofs_per_cell skew_mesh)%nat) by (simpl; lia).
  assert (H11 : (1 < dofs_per_cell skew_mesh)%nat) by (simpl; lia).
  specialize (H H01 H11).
  apply (f_equal (fun x =>
    PrimFloat.eqb x
      (mget (cell_matrix_of skew_mesh anisotropic_coefficients default_parameters_float
               skew_cell 0%float [1; 1; 1; 1]%float [1; 1; 1; 1]%float) 1 0))) in H.
  vm_compute in H. discriminate H.
Qed.

(** The two entries are one unit in the last place apart. *)
Remark binary64_rounding_is_small :
  let m := cell_matrix_of skew_mesh anisotropic_coefficients default_parameters_float
             skew_cell 0%float [1; 1; 1; 1]%float [1; 1; 1; 1]%float in
  PrimFloat.eqb (mget m 0 1 - mget m 1 0)%float 0x1p-51%float = true.
Proof. vm_compute. reflexivity. Qed.


(** With the positive tolerance 2^-80 the Newton solve at the constant 1
    then runs linear solves and moves the solution off the constant. *)
Remark constant_one_binary64_newton_updates :
  PrimFloat.ltb 0%float (newton_tolerance tiny_tolerance_parameters_float) = true /\
  match solve_newton generic_mesh anisotropic_coefficients
          tiny_tolerance_parameters_float LinearAlgebra_float constant_one_float with
  | Done s' =>
      (0 <? cg_solves (trace s'))%nat && negb (PrimFloat.eqb (vget (solution s') 3) 1%float)
  | _ => false
  end = true.
Proof. split; vm_compute; reflexivity. Qed.

(** With the step size zero the time-derivative term is 0/0: every entry of
    the residual assembled at the constant 1 is a NaN. *)
Remark constant_one_binary64_zero_step :
  let r := residual_vector
             (assemble_system generic_mesh anisotropic_coefficients
                zero_step_parameters_float constant_one_float) in
  forallb (fun x => negb (PrimFloat.eqb x x)) r = true.
Proof. vm_compute. reflexivity. Qed.

(** * Further properties of the assembly *)

Section AssemblyStructure.

Context {F : Type} {num : Num F}.
Variable disc : Discretization F.
Variable coef : Coefficients F.
Variable prm : Parameters F.
Local Open Scope num_scope.

Lemma update_at_overflow {A : Type} (f : A -> A) (k : nat) (v : list A) :
  length v <= k -> update_at f k v = v.
Proof.
  revert k. induction v as [|x v IH]; intros [|k] Hk; simpl in *; auto; try lia.
  rewrite IH by lia. reflexivity.
Qed.

Lemma vget_update_at_other (g : F -> F) (k a : nat) (v : Vector F) :
  k <> a -> vget (update_at g k v) a = vget v a.
Proof. intros H. unfold vget. apply nth_update_at_other. exact H. Qed.

(** An update at [(i, j)] leaves every other entry alone, in range or not. *)
Lemma mget_update_at_other (g : F -> F) (i j a b : nat) (m : Matrix F) :
  i <> a \/ j <> b ->
  mget (update_at (update_at g j) i m) a b = mget m a b.
Proof.
  intros H. unfold mget.
  destruct (Nat.eq_dec i a) as [->|Hia].
  - destruct H as [H|H]; [contradiction|].
    destruct (Nat.lt_ge_cases a (length m)) as [Ha|Ha].
    + rewrite nth_update_at_same by exact Ha. apply nth_update_at_other. exact H.
    + rewrite update_at_overflow by exact Ha. reflexivity.
  - rewrite nth_update_at_other by exact Hia. reflexivity.
Qed.

Lemma vget_vzero (v : Vector F) (a : nat) : vget (vzero v) a = Fzero.
Proof.
  unfold vget, vzero.
  change (nth a (map (fun _ : F => Fzero) v) Fzero)
    with (nth a (map (fun _ : F => Fzero) v) ((fun _ : F => Fzero) Fzero)).
  rewrite map_nth. reflexivity.
Qed.

Lemma mget_mzero (m : Matrix F) (a b : nat) : mget (mzero m) a b = Fzero.
Proof.
  unfold mget, mzero.
  change (nth a (map vzero m) []) with (nth a (map vzero m) (vzero [])).
  rewrite map_nth. apply vget_vzero.
Qed.

(** The scatter of an element block writes only at pairs of the cell's DoFs. *)
Lemma matrix_add_other (dofs : list nat) (cm m : Matrix F) (a b : nat) :
  ~ (In a dofs /\ In b dofs) ->
  mget (matrix_add dofs cm m) a b = mget m a b.
Proof.
  intros H. unfold matrix_add.
  apply for_loop_miss with (Inv := fun _ => True)
    (obs := fun m : Matrix F => mget m a b); auto.
  intros i m1 Hi _.
  apply for_loop_miss with (Inv := fun _ => True)
    (obs := fun m : Matrix F => mget m a b); auto.
  intros j m2 Hj _. unfold madd_at, vadd_at.
  apply mget_update_at_other.
  destruct (Nat.eq_dec (nth i dofs O) a) as [Ha|Ha]; [|left; exact Ha].
  destruct (Nat.eq_dec (nth j dofs O) b) as [Hb|Hb]; [|right; exact Hb].
  exfalso. apply H. split; [rewrite <- Ha | rewrite <- Hb]; apply nth_In; assumption.
Qed.

Lemma vector_add_other (dofs : list nat) (cv v : Vector F) (a : nat) :
  ~ In a dofs -> vget (vector_add dofs cv v) a = vget v a.
Proof.
  intros H. unfold vector_add.
  apply for_loop_miss with (Inv := fun _ => True)
    (obs := fun v : Vector F => vget v a); auto.
  intros i v1 Hi _. unfold vadd_at. apply vget_update_at_other.
  intros Ha. apply H. rewrite <- Ha. apply nth_In. exact Hi.
Qed.

(** The loop over a list of cells, stated on the list. *)
Lemma assemble_cells_with_cells (cells : list (Cell F)) (f_time : F)
  (u u_old : Vector F) (glob : Matrix F * Vector F) :
  assemble_cells (with_cells disc cells) coef prm f_time u u_old glob =
  fold_left (assemble_on_cell disc coef prm f_time u u_old) cells glob.
Proof. reflexivity. Qed.

Lemma fold_owned_cells (cells : list (Cell F)) (f_time : F) (u u_old : Vector F)
  (glob : Matrix F * Vector F) :
  fold_left (assemble_on_cell disc coef prm f_time u u_old)
    (filter (@is_locally_owned F) cells) glob =
  fold_left (assemble_on_cell disc coef prm f_time u u_old) cells glob.
Proof.
  revert glob. induction cells as [|c cells IH]; intros glob; simpl; [reflexivity|].
  destruct (is_locally_owned c) eqn:Hc; simpl.
  - apply IH.
  - rewrite IH.
    replace (assemble_on_cell disc coef prm f_time u u_old glob c) with glob
      by (unfold assemble_on_cell; rewrite Hc; reflexivity).
    reflexivity.
Qed.

(** X1: cells that are not locally owned contribute nothing: the assembly
    over all active cells is the assembly over the locally owned ones, and
    where no cell is locally owned it leaves both global structures zeroed. *)
Theorem assemble_system_owned_cells (s : FisherKolmogorov3D F) :
  assemble_system disc coef prm s =
    assemble_system (with_cells disc (owned_cells disc)) coef prm s /\
  (owned_cells disc = [] ->
   jacobian_matrix (assemble_system disc coef prm s) = mzero (jacobian_matrix s) /\
   residual_vector (assemble_system disc coef prm s) = vzero (residual_vector s)).
Proof.
  assert (H : assemble_cells disc coef prm (time s) (solution s) (solution_old s)
                (mzero (jacobian_matrix s), vzero (residual_vector s)) =
              fold_left (assemble_on_cell disc coef prm (time s) (solution s)
                           (solution_old s))
                (owned_cells disc)
                (mzero (jacobian_matrix s), vzero (residual_vector s))).
  { unfold owned_cells. rewrite fold_owned_cells. reflexivity. }
  split.
  - rewrite !assemble_system_spec. rewrite assemble_cells_with_cells, H. reflexivity.
  - intros Hnone. rewrite assemble_system_spec. cbn [jacobian_matrix residual_vector].
    rewrite H, Hnone. split; reflexivity.
Qed.

Lemma assemble_cells_other_entry (cells : list (Cell F)) (f_time : F)
  (u u_old : Vector F) (glob : Matrix F * Vector F) (a b : nat) :
  (forall c, In c cells -> is_locally_owned c = true ->
             ~ (In a (get_dof_indices c) /\ In b (get_dof_indices c))) ->
  mget (fst (fold_left (assemble_on_cell disc coef prm f_time u u_old) cells glob)) a b =
  mget (fst glob) a b.
Proof.
  revert glob. induction cells as [|c cells IH]; intros glob H; simpl; [reflexivity|].
  rewrite IH by (intros c' Hc'; apply H; right; exact Hc').
  unfold assemble_on_cell. destruct (is_locally_owned c) eqn:Hc; [|reflexivity].
  simpl. apply matrix_add_other. apply H; [left; reflexivity|exact Hc].
Qed.

Lemma assemble_cells_other_dof (cells : list (Cell F)) (f_time : F)
  (u u_old : Vector F) (glob : Matrix F * Vector F) (a : nat) :
  (forall c, In c cells -> is_locally_owned c = true -> ~ In a (get_dof_indices c)) ->
  vget (snd (fold_left (assemble_on_cell disc coef prm f_time u u_old) cells glob)) a =
  vget (snd glob) a.
Proof.
  revert glob. induction cells as [|c cells IH]; intros glob H; simpl; [reflexivity|].
  rewrite IH by (intros c' Hc'; apply H; right; exact Hc').
  unfold assemble_on_cell. destruct (is_locally_owned c) eqn:Hc; [|reflexivity].
  simpl. apply vector_add_other. apply H; [left; reflexivity|exact Hc].
Qed.

(** X2: the assembled Jacobian is zero at every pair of DoFs that no locally
    owned cell couples, and the assembled residual is zero at every DoF that
    no locally owned cell holds, whatever the arithmetic. *)
Theorem assemble_system_sparsity (s : FisherKolmogorov3D F) (a b : nat) :
  (~ couples disc a b ->
   mget (jacobian_matrix (assemble_system disc coef prm s)) a b = Fzero) /\
  (~ couples disc a a ->
   vget (residual_vector (assemble_system disc coef prm s)) a = Fzero).
Proof.
  split; intros H; rewrite assemble_system_spec;
    cbn [jacobian_matrix residual_vector]; unfold assemble_cells.
  - rewrite assemble_cells_other_entry.
    + apply mget_mzero.
    + intros c Hc Ho [Ha Hb]. apply H. exists c. auto.
  - rewrite assemble_cells_other_dof.
    + apply vget_vzero.
    + intros c Hc Ho Ha. apply H. exists c. auto.
Qed.

Lemma length_vzero (v : Vector F) : length (vzero v) = length v.
Proof. apply length_map. Qed.

Lemma mzero_row_length (m m' : Matrix F) (a : nat) :
  mzero m = mzero m' -> length (nth a m []) = length (nth a m' []).
Proof.
  intros H.
  assert (Hr : forall x : Matrix F, nth a (mzero x) [] = vzero (nth a x [])).
  { intros x. unfold mzero.
    change (nth a (map vzero x) []) with (nth a (map vzero x) (vzero [])).
    apply map_nth. }
  rewrite <- (length_vzero (nth a m [])), <- (length_vzero (nth a m' [])).
  rewrite <- !Hr, H. reflexivity.
Qed.

Lemma matrix_ext (n : nat) (m m' : Matrix F) :
  mshape n m -> mshape n m' ->
  (forall i j, i < n -> j < n -> mget m i j = mget m' i j) ->
  m = m'.
Proof.
  intros Hm Hm' H.
  apply nth_ext with (d := []) (d' := []).
  - destruct Hm, Hm'. congruence.
  - intros i Hi. assert (Hin : i < n) by (destruct Hm; lia).
    apply nth_ext with (d := Fzero) (d' := Fzero).
    + rewrite (mshape_row Hm Hin), (mshape_row Hm' Hin). reflexivity.
    + intros j Hj. rewrite (mshape_row Hm Hin) in Hj. apply H; assumption.
Qed.

(** The element block is a function of the current iterate alone. *)
Lemma cell_matrix_reads_only_solution (c : Cell F) (f_time f_time' : F)
  (forcing forcing' : F -> Point F -> F) (u0 u0' : Point F -> F)
  (d : Point F -> Tensor2 F) (u u_old u_old' : Vector F) :
  cell_matrix_of disc (mkCoefficients d forcing u0) prm c f_time u u_old =
  cell_matrix_of disc (mkCoefficients d forcing' u0') prm c f_time' u u_old'.
Proof.
  apply matrix_ext with (n := dofs_per_cell disc).
  - apply assemble_cell_shape.
  - apply assemble_cell_shape.
  - intros i j Hi Hj. rewrite !cell_matrix_entry by assumption. reflexivity.
Qed.

Lemma assemble_cells_jacobian (cells : list (Cell F)) (f_time f_time' : F)
  (forcing forcing' : F -> Point F -> F) (u0 u0' : Point F -> F)
  (d : Point F -> Tensor2 F) (u u_old u_old' : Vector F) (m : Matrix F)
  (v v' : Vector F) :
  fst (fold_left (assemble_on_cell disc (mkCoefficients d forcing u0) prm f_time u u_old)
         cells (m, v)) =
  fst (fold_left (assemble_on_cell disc (mkCoefficients d forcing' u0') prm f_time' u
                    u_old') cells (m, v')).
Proof.
  revert m v v'. induction cells as [|c cells IH]; intros m v v'; simpl; [reflexivity|].
  unfold assemble_on_cell at 2 4. destruct (is_locally_owned c).
  - fold (cell_matrix_of disc (mkCoefficients d forcing u0) prm c f_time u u_old).
    fold (cell_matrix_of disc (mkCoefficients d forcing' u0') prm c f_time' u u_old').
    rewrite (cell_matrix_reads_only_solution c f_time f_time' forcing forcing' u0 u0' d
               u u_old u_old').
    apply IH.
  - apply IH.
Qed.

(** X4: the assembled Jacobian does not read [solution_old], the time or
    the forcing term: with the same [solution] and the same diffusion tensor
    it comes out the same. *)
Theorem jacobian_reads_only_solution (s : FisherKolmogorov3D F) (t : F)
  (u_old : Vector F) (forcing : F -> Point F -> F) (u0 : Point F -> F) :
  jacobian_matrix
    (assemble_system disc (mkCoefficients (d_value coef) forcing u0) prm
       (set_solution_old u_old (set_time t s))) =
  jacobian_matrix (assemble_system disc coef prm s).
Proof.
  rewrite !assemble_system_spec. cbn [jacobian_matrix]. unfold assemble_cells.
  cbn [time solution solution_old jacobian_matrix residual_vector set_solution_old
       set_time].
  destruct coef as [d f0 v0]. cbn [d_value].
  apply assemble_cells_jacobian.
Qed.

End AssemblyStructure.

(** * Further properties of the Newton driver *)

Section NewtonStructure.

Context {F : Type} {num : Num F}.
Variable disc : Discretization F.
Variable coef : Coefficients F.
Variable prm : Parameters F.
Variable la : LinearAlgebra F.

Lemma newton_reports_app (evs evs' : list (Event F)) :
  newton_reports (evs ++ evs') = newton_reports evs + newton_reports evs'.
Proof. unfold newton_reports. rewrite filter_app, length_app. reflexivity. Qed.

Lemma cg_solves_app (evs evs' : list (Event F)) :
  cg_solves (evs ++ evs') = cg_solves evs + cg_solves evs'.
Proof. unfold cg_solves. rewrite filter_app, length_app. reflexivity. Qed.

(** What a completed pass logs and how it moves the counter. *)
Lemma newton_body_log (w w' : NewtonLoop F) :
  newton_body disc coef prm la w = Done w' ->
  n_iter w' = S (n_iter w) /\
  exists evs,
    trace (newton_self w') = evs ++ trace (newton_self w) /\
    Forall (@newton_event F) evs /\
    newton_reports evs = 1 /\ cg_solves evs <= 1.
Proof.
  intros H. apply newton_body_frame in H.
  destruct H as (Hn & _ & _ & _ & _ & e & He & Htr).
  split; [exact Hn|].
  eexists. split; [exact Htr|].
  destruct He as [->|[k ->]].
  - split; [repeat (apply Forall_cons; [exact I|]); apply Forall_nil|].
    unfold newton_reports, cg_solves. simpl. lia.
  - split; [repeat (apply Forall_cons; [exact I|]); apply Forall_nil|].
    unfold newton_reports, cg_solves. simpl. lia.
Qed.

Lemma newton_reaches_log (w w' : NewtonLoop F) :
  newton_reaches disc coef prm la w w' ->
  n_iter w <= max_newton_iterations prm ->
  n_iter w <= n_iter w' /\ n_iter w' <= max_newton_iterations prm /\
  exists evs,
    trace (newton_self w') = evs ++ trace (newton_self w) /\
    Forall (@newton_event F) evs /\
    newton_reports evs = n_iter w' - n_iter w /\
    cg_solves evs <= newton_reports evs.
Proof.
  induction 1 as [w|w w1 w' Hc Hb Hr IH]; intros Hmax.
  - split; [lia|]. split; [exact Hmax|].
    exists []. split; [reflexivity|]. split; [constructor|].
    unfold newton_reports, cg_solves. simpl. lia.
  - apply newton_body_log in Hb. destruct Hb as (Hn & evs1 & Htr1 & Hall1 & Hrep1 & Hcg1).
    unfold newton_cond in Hc. apply andb_prop in Hc. destruct Hc as [Hc _].
    apply Nat.ltb_lt in Hc.
    destruct IH as (Hle & Hmax' & evs & Htr & Hall & Hrep & Hcg); [lia|].
    split; [lia|]. split; [exact Hmax'|].
    exists (evs ++ evs1). split; [rewrite Htr, Htr1, app_assoc; reflexivity|].
    split; [apply Forall_app; split; assumption|].
    rewrite newton_reports_app, cg_solves_app. lia.
Qed.

(** X5: the iteration cap bounds the work of a Newton solve: it logs only
    Newton events, at most [max_newton_iterations] assemblies with their
    reports, and at most one linear solve per assembly. *)
Theorem solve_newton_bounded (s s' : FisherKolmogorov3D F) :
  solve_newton disc coef prm la s = Done s' ->
  exists evs,
    trace s' = evs ++ trace s /\
    Forall (@newton_event F) evs /\
    newton_reports evs <= max_newton_iterations prm /\
    cg_solves evs <= newton_reports evs.
Proof.
  intros H. apply solve_newton_reaches in H. destruct H as (w' & Hr & <-).
  apply newton_reaches_log in Hr; [|simpl; lia].
  destruct Hr as (_ & Hmax & evs & Htr & Hall & Hrep & Hcg).
  exists evs. simpl in *. split; [exact Htr|]. split; [exact Hall|]. lia.
Qed.

Lemma newton_body_consistent (w w' : NewtonLoop F) :
  newton_body disc coef prm la w = Done w' -> newton_consistent disc coef prm la w'.
Proof.
  intros H.
  destruct (newton_tolerance prm <?
            l2_norm la (residual_vector (assemble_system disc coef prm (newton_self w))))%num
    eqn:Htol.
  - rewrite newton_body_above in H by exact Htol.
    apply bind_Done_inv in H. destruct H as (s1 & H1 & H2).
    apply newton_update_Done in H1. destruct H1 as (x & k & _ & ->).
    injection H2 as <-. split.
    + reflexivity.
    + intros Hf. exfalso. exact (eq_true_false_abs _ Htol Hf).
  - rewrite newton_body_below in H by exact Htol. injection H as <-.
    split; [reflexivity|]. intros _.
    destruct (assemble_cells_shape disc coef prm (time (newton_self w))
                (solution (newton_self w)) (solution_old (newton_self w))
                (mzero (jacobian_matrix (newton_self w)),
                 vzero (residual_vector (newton_self w)))) as [Hm Hv].
    cbn [fst snd] in Hm, Hv. rewrite mzero_idem in Hm. rewrite vzero_idem in Hv.
    destruct (@assemble_system_reads F num disc coef prm (newton_self w)
               (emit EvBelowTolerance
                  (emit (EvNewtonIteration (n_iter w)
                           (l2_norm la (residual_vector
                              (assemble_system disc coef prm (newton_self w)))))
                     (assemble_system disc coef prm (newton_self w)))))
      as [HJ HR]; [reflexivity|reflexivity|reflexivity|exact Hm|exact Hv|].
    split; [exact (eq_sym HR)|exact (eq_sym HJ)].
Qed.

Lemma newton_reaches_consistent (w w' : NewtonLoop F) :
  newton_reaches disc coef prm la w w' ->
  w' = w \/ newton_consistent disc coef prm la w'.
Proof.
  induction 1 as [w|w w1 w' Hc Hb Hr IH].
  - left. reflexivity.
  - right. destruct IH as [->|IH]; [|exact IH].
    apply newton_body_consistent with (w := w). exact Hb.
Qed.

Lemma newton_iterations_exit (s : FisherKolmogorov3D F) (w' : NewtonLoop F) :
  newton_iterations disc coef prm la s = Done w' ->
  newton_cond prm w' = false /\
  newton_reaches disc coef prm la (newton_init prm s) w'.
Proof.
  unfold newton_iterations. intros H. split.
  - apply (while_loop_inv (fun _ => True) (newton_cond prm) (newton_body disc coef prm la))
      in H; auto. apply H.
  - apply while_loop_reaches in H. exact H.
Qed.

(** X6: a Newton solve that stops after at least one pass and before the cap
    has converged: the norm of the residual vector it leaves is not above
    the tolerance; and whenever that is so, the residual vector and the
    Jacobian it leaves are those of the [solution] it leaves. *)
Theorem solve_newton_converged (s : FisherKolmogorov3D F) (w' : NewtonLoop F) :
  newton_iterations disc coef prm la s = Done w' ->
  0 < n_iter w' ->
  let s' := newton_self w' in
  let tol := newton_tolerance prm in
  residual_norm w' = l2_norm la (residual_vector s') /\
  (n_iter w' < max_newton_iterations prm ->
   (tol <? l2_norm la (residual_vector s'))%num = false) /\
  ((tol <? l2_norm la (residual_vector s'))%num = false ->
   residual_vector s' = residual_vector (assemble_system disc coef prm s') /\
   jacobian_matrix s' = jacobian_matrix (assemble_system disc coef prm s')).
Proof.
  intros H Hpos s' tol. apply newton_iterations_exit in H. destruct H as [Hc Hr].
  apply newton_reaches_consistent in Hr.
  destruct Hr as [->|[Hnorm Hcons]]; [simpl in Hpos; lia|].
  subst s' tol. rewrite <- Hnorm. split; [reflexivity|]. split; [|exact Hcons].
  intros Hlt. unfold newton_cond in Hc. apply andb_false_iff in Hc.
  destruct Hc as [Hc|Hc]; [|exact Hc].
  apply Nat.ltb_ge in Hc. lia.
Qed.

(** X7: the Newton loop is skipped, and [solve_newton] returns the object
    untouched, exactly when the cap is zero or [newton_tolerance + 1] does
    not compare above [newton_tolerance]; [set_solver_parameters] accepts a
    cap of zero, and every Newton solve is then skipped. *)
Theorem newton_loop_entry (s : FisherKolmogorov3D F) :
  (solve_newton disc coef prm la s = Done s <->
   max_newton_iterations prm = 0 \/
   (newton_tolerance prm <? Fadd (newton_tolerance prm) Fone)%num = false) /\
  (forall newton_tol max_cg_iter cg_tol_factor,
     solve_newton disc coef
       (set_solver_parameters 0 newton_tol max_cg_iter cg_tol_factor prm) la s = Done s).
Proof.
  split; [|intros; reflexivity].
  assert (Hcond : newton_cond prm (newton_init prm s) = false <->
                  max_newton_iterations prm = 0 \/
                  (newton_tolerance prm <? Fadd (newton_tolerance prm) Fone)%num = false).
  { unfold newton_cond. simpl. rewrite andb_false_iff.
    destruct (max_newton_iterations prm); simpl; intuition (try discriminate; auto). }
  rewrite <- Hcond. split.
  - intros H. destruct (newton_cond prm (newton_init prm s)) eqn:Hc; [|reflexivity].
    exfalso. unfold solve_newton in H.
    apply bind_Done_inv in H. destruct H as (w' & Hw & Hd).
    injection Hd as Hs. apply newton_iterations_exit in Hw. destruct Hw as [Hc' Hr].
    remember (newton_init prm s) as w0 eqn:Hw0.
    destruct Hr as [w|w w1 w2 Hcw Hb Hr1].
    + rewrite Hc in Hc'. discriminate.
    + apply newton_body_log in Hb. destruct Hb as (Hn & evs1 & Htr1 & _ & Hrep1 & _).
      apply newton_reaches_log in Hr1.
      * destruct Hr1 as (_ & _ & evs & Htr & _).
        rewrite Hs in Htr. rewrite Htr1 in Htr. rewrite Hw0 in Htr. simpl in Htr.
        apply (f_equal (@length (Event F))) in Htr. rewrite !length_app in Htr.
        assert (Hlen : 0 < length evs1).
        { destruct evs1; [unfold newton_reports in Hrep1; simpl in Hrep1; lia|simpl; lia]. }
        lia.
      * unfold newton_cond in Hc. apply andb_prop in Hc. destruct Hc as [Hc _].
        apply Nat.ltb_lt in Hc. rewrite Hw0 in Hc, Hn. simpl in Hc, Hn. lia.
  - intros Hc. unfold solve_newton, newton_iterations.
    rewrite while_loop_exit by exact Hc. reflexivity.
Qed.

(** Every pass keeps [solution] equal to [solution_owned] where it was. *)
Lemma newton_reaches_ghost (w w' : NewtonLoop F) :
  newton_reaches disc coef prm la w w' ->
  solution (newton_self w) = solution_owned (newton_self w) ->
  solution (newton_self w') = solution_owned (newton_self w').
Proof.
  induction 1 as [w|w w1 w' Hc Hb Hr IH]; intros Hg; [exact Hg|].
  apply IH.
  destruct (newton_tolerance prm <?
            l2_norm la (residual_vector (assemble_system disc coef prm (newton_self w))))%num
    eqn:Htol.
  - rewrite newton_body_above in Hb by exact Htol.
    apply bind_Done_inv in Hb. destruct Hb as (s1 & H1 & H2).
    apply newton_update_Done in H1. destruct H1 as (x & k & _ & ->).
    injection H2 as <-. reflexivity.
  - rewrite newton_body_below in Hb by exact Htol. injection Hb as <-. exact Hg.
Qed.

Lemma time_loop_inv (Inv : TimeLoop F -> Prop) (fuel : nat) (w w' : TimeLoop F) :
  (forall w1 w2, Inv w1 -> time_body disc coef prm la w1 = Done w2 -> Inv w2) ->
  Inv w -> time_loop disc coef prm la fuel w = Done w' -> Inv w'.
Proof.
  intros Hb Hw H. unfold time_loop in H.
  apply (while_loop_inv Inv (time_cond prm) (time_body disc coef prm la)) in H; auto.
  - apply H.
  - intros w1 w2 H1 _ H2. apply (Hb w1 w2); assumption.
Qed.

(** X8: the ghosted view follows the owned vector: a Newton solve entered
    with [solution = solution_owned] returns with it, and so does [solve],
    whatever the object held before. *)
Theorem solution_follows_solution_owned :
  (forall s s', solve_newton disc coef prm la s = Done s' ->
     solution s = solution_owned s -> solution s' = solution_owned s') /\
  (forall fuel s s', solve disc coef prm la fuel s = Done s' ->
     solution s' = solution_owned s').
Proof.
  assert (HN : forall s s', solve_newton disc coef prm la s = Done s' ->
             solution s = solution_owned s -> solution s' = solution_owned s').
  { intros s s' H Hg. apply solve_newton_reaches in H. destruct H as (w' & Hr & <-).
    apply (newton_reaches_ghost _ _ Hr). exact Hg. }
  split; [exact HN|].
  intros fuel s s' H. unfold solve in H.
  apply bind_Done_inv in H. destruct H as (w' & Hw & Hd). injection Hd as <-.
  apply (time_loop_inv (fun w => solution (time_self w) = solution_owned (time_self w)))
    in Hw; auto.
  intros w1 w2 Hg Hb. unfold time_body in Hb.
  apply bind_Done_inv in Hb. destruct Hb as (s1 & Hs & Hd). injection Hd as <-.
  simpl. apply (HN _ _ Hs). simpl. exact Hg.
Qed.

Lemma output_steps_app (evs evs' : list (Event F)) :
  output_steps (evs ++ evs') = output_steps evs ++ output_steps evs'.
Proof. unfold output_steps. apply flat_map_app. Qed.

Lemma header_steps_app (evs evs' : list (Event F)) :
  header_steps (evs ++ evs') = header_steps evs ++ header_steps evs'.
Proof. unfold header_steps. apply flat_map_app. Qed.

Lemma newton_events_no_output (evs : list (Event F)) :
  Forall (@newton_event F) evs -> output_steps evs = [] /\ header_steps evs = [].
Proof.
  induction 1 as [|e evs He _ [IH1 IH2]]; [split; reflexivity|].
  destruct e; simpl in He; try contradiction; simpl; auto.
Qed.



End NewtonStructure.

(** * Further properties in exact arithmetic *)

Section RealStructure.

Variable disc : Discretization R.
Variable coef : Coefficients R.
Variable prm : Parameters R.
Variable la : LinearAlgebra R.
Local Open Scope R_scope.

Lemma time_body_time (w w1 : TimeLoop R) :
  time_body disc coef prm la w = Done w1 ->
  time (time_self w1) = time (time_self w) + deltat prm.
Proof.
  unfold time_body. intros H.
  apply bind_Done_inv in H. destruct H as (s1 & Hs & Hd). injection Hd as <-.
  apply solve_newton_reaches in Hs. destruct Hs as (wn & Hr & <-).
  apply newton_reaches_frame in Hr. destruct Hr as (Ht & _). exact Ht.
Qed.

Lemma time_loop_never_done (fuel : nat) (w w' : TimeLoop R) :
  deltat prm <= 0 -> 0 < T prm - deltat prm / 2 ->
  time (time_self w) <= 0 ->
  time_loop disc coef prm la fuel w <> Done w'.
Proof.
  intros Hd HT. revert w. induction fuel as [|fuel IH]; intros w Hw; [discriminate|].
  assert (Hc : time_cond prm w = true) by (apply time_cond_true; lra).
  unfold time_loop. cbn [while_loop]. rewrite Hc.
  destruct (time_body disc coef prm la w) as [w1| |] eqn:Hb; cbn [bind];
    try discriminate.
  apply IH. rewrite (time_body_time _ _ Hb). lra.
Qed.

Lemma time_loop_out_of_fuel (fuel : nat) (w : TimeLoop R) :
  cg_always_converges la ->
  deltat prm <= 0 -> 0 < T prm - deltat prm / 2 ->
  time (time_self w) <= 0 ->
  time_loop disc coef prm la fuel w = OutOfFuel.
Proof.
  intros Hcg Hd HT. revert w. induction fuel as [|fuel IH]; intros w Hw; [reflexivity|].
  assert (Hc : time_cond prm w = true) by (apply time_cond_true; lra).
  unfold time_loop. cbn [while_loop]. rewrite Hc.
  destruct (time_body_total disc coef prm w Hcg) as (w1 & Hb & Ht & _).
  rewrite Hb. cbn [bind]. apply IH. lra.
Qed.

(** X10: in exact arithmetic a step size that is zero or negative, with
    [T - deltat/2 > 0], keeps the loop condition true for ever: [solve]
    returns for no amount of fuel, and with linear solves that converge it
    runs through any amount of fuel. *)
Theorem solve_never_returns (s : FisherKolmogorov3D R) :
  deltat prm <= 0 -> 0 < T prm - deltat prm / 2 ->
  (forall fuel s', solve disc coef prm la fuel s <> Done s') /\
  (cg_always_converges la -> forall fuel, solve disc coef prm la fuel s = OutOfFuel).
Proof.
  intros Hd HT. split.
  - intros fuel s' H. unfold solve in H.
    apply bind_Done_inv in H. destruct H as (w' & Hw & _).
    revert Hw. apply time_loop_never_done; auto. simpl. lra.
  - intros Hcg fuel. unfold solve.
    rewrite time_loop_out_of_fuel; auto. simpl. lra.
Qed.

End RealStructure.

(** ** The time loop of [solve], whatever the linear solver does *)

Section RealTimeLoop.

Variable disc : Discretization R.
Variable coef : Coefficients R.
Variable prm : Parameters R.
Variable la : LinearAlgebra R.
Local Open Scope R_scope.

(** A completed timestep prints one header. *)
Lemma time_body_headers (w w1 : TimeLoop R) :
  time_body disc coef prm la w = Done w1 ->
  exists evs, trace (time_self w1) = evs ++ trace (time_self w) /\
              length (header_steps evs) = 1%nat.
Proof.
  intros Hb. unfold time_body in Hb.
  apply bind_Done_inv in Hb. destruct Hb as (s1 & Hs & Hd). injection Hd as <-.
  apply solve_newton_reaches in Hs. destruct Hs as (wn & Hr & <-).
  apply newton_reaches_log in Hr; [|simpl; lia].
  destruct Hr as (_ & _ & evsn & Htrn & Halln & _).
  apply newton_events_no_output in Halln. destruct Halln as [_ Hh].
  simpl in Htrn.
  exists (EvOutput (S (time_step w)) (solution (newton_self wn)) :: evsn ++
          [EvTimeStep (S (time_step w)) (time (time_self w) + deltat prm)]).
  split.
  - simpl. rewrite Htrn, <- app_assoc. reflexivity.
  - unfold header_steps in *. simpl. rewrite flat_map_app, Hh. reflexivity.
Qed.

Lemma time_body_not_OutOfFuel (w : TimeLoop R) :
  time_body disc coef prm la w <> OutOfFuel.
Proof.
  unfold time_body.
  pose proof (solve_newton_not_OutOfFuel disc coef prm la
                (time_self (begin_time_step prm w))) as H.
  destruct (solve_newton disc coef prm la (time_self (begin_time_step prm w)));
    simpl; [discriminate|discriminate|contradiction].
Qed.

(** The loop stops, by returning or by throwing, within [m] steps when [m]
    steps get past [T - deltat/2]. *)
Lemma time_loop_halts (m : nat) :
  forall (w : TimeLoop R) (fuel : nat),
    T prm - deltat prm / 2 <= time (time_self w) + INR m * deltat prm ->
    (m < fuel)%nat ->
    time_loop disc coef prm la fuel w <> OutOfFuel.
Proof.
  induction m as [|m IH]; intros w fuel Hm Hf;
    (destruct fuel as [|fuel]; [lia|]); unfold time_loop; cbn [while_loop].
  - assert (Hc : time_cond prm w = false) by (apply time_cond_false; simpl in Hm; lra).
    rewrite Hc. discriminate.
  - destruct (time_cond prm w) eqn:Hc; [|discriminate].
    pose proof (time_body_not_OutOfFuel w) as Hn.
    destruct (time_body disc coef prm la w) as [w1| |] eqn:Hb; cbn [bind];
      [|discriminate|contradiction].
    apply IH; [|lia]. rewrite (time_body_time _ _ _ _ _ _ Hb).
    rewrite S_INR in Hm. lra.
Qed.

(** With linear solves that converge it stops by returning. *)
Lemma time_loop_returns (m : nat) :
  cg_always_converges la ->
  forall (w : TimeLoop R) (fuel : nat),
    T prm - deltat prm / 2 <= time (time_self w) + INR m * deltat prm ->
    (m < fuel)%nat ->
    exists w', time_loop disc coef prm la fuel w = Done w'.
Proof.
  intros Hcg. induction m as [|m IH]; intros w fuel Hm Hf;
    (destruct fuel as [|fuel]; [lia|]); unfold time_loop; cbn [while_loop].
  - assert (Hc : time_cond prm w = false) by (apply time_cond_false; simpl in Hm; lra).
    rewrite Hc. eexists. reflexivity.
  - destruct (time_cond prm w) eqn:Hc; [|eexists; reflexivity].
    destruct (time_body_total disc coef prm w Hcg) as (w1 & Hb & Ht1 & _).
    rewrite Hb. cbn [bind]. apply IH; [|lia].
    rewrite Ht1. rewrite S_INR in Hm. lra.
Qed.

(** A loop that returns has made [j] steps, with [j] headers, from [t] to
    [t + j deltat]; the condition held before each of them and fails at the
    end. *)
Lemma time_loop_steps (fuel : nat) :
  forall w w' : TimeLoop R,
    time_loop disc coef prm la fuel w = Done w' ->
    exists (j : nat) (evs : list (Event R)),
      trace (time_self w') = evs ++ trace (time_self w) /\
      length (header_steps evs) = j /\
      time (time_self w') = time (time_self w) + INR j * deltat prm /\
      (forall i, (i < j)%nat ->
         time (time_self w) + INR i * deltat prm < T prm - deltat prm / 2) /\
      T prm - deltat prm / 2 <= time (time_self w').
Proof.
  induction fuel as [|fuel IH]; intros w w' H; [discriminate|].
  unfold time_loop in H. cbn [while_loop] in H.
  destruct (time_cond prm w) eqn:Hc.
  - destruct (time_body disc coef prm la w) as [w1| |] eqn:Hb; cbn [bind] in H;
      try discriminate.
    destruct (IH w1 w' H) as (j & evs & Htr & Hlen & Ht & Hlt & Hend).
    destruct (time_body_headers _ _ Hb) as (evs1 & Htr1 & Hlen1).
    pose proof (time_body_time _ _ _ _ _ _ Hb) as Ht1.
    exists (S j), (evs ++ evs1). split; [|split; [|split; [|split]]].
    + rewrite Htr, Htr1, app_assoc. reflexivity.
    + rewrite header_steps_app, length_app, Hlen, Hlen1. lia.
    + rewrite Ht, Ht1, S_INR. lra.
    + intros [|i] Hi.
      * simpl. apply time_cond_true in Hc. lra.
      * specialize (Hlt i ltac:(lia)). rewrite Ht1 in Hlt. rewrite S_INR. lra.
    + exact Hend.
  - injection H as <-. exists O, []. apply time_cond_false in Hc.
    split; [reflexivity|]. split; [reflexivity|]. split; [simpl; lra|].
    split; [intros i Hi; lia|exact Hc].
Qed.

(** The number of steps: the first [n] with [T - deltat/2 <= n deltat]. *)
Lemma first_step_past :
  0 < deltat prm ->
  exists n : nat,
    (forall i, (i < n)%nat -> INR i * deltat prm < T prm - deltat prm / 2) /\
    T prm - deltat prm / 2 <= INR n * deltat prm.
Proof.
  intros Hd. destruct (steps_reach_T prm Hd) as (m & Hm).
  assert (H : T prm - deltat prm / 2 <= INR m * deltat prm) by lra. clear Hm.
  induction m as [|m IH].
  - exists O. split; [intros i Hi; lia|exact H].
  - destruct (Rlt_le_dec (INR m * deltat prm) (T prm - deltat prm / 2)) as [Hlt|Hle].
    + exists (S m). split; [|exact H].
      intros i Hi. apply Rle_lt_trans with (INR m * deltat prm); [|exact Hlt].
      apply Rmult_le_compat_r; [lra|]. apply le_INR. lia.
    + apply IH. exact Hle.
Qed.

Lemma first_step_past_unique (n j : nat) :
  (forall i, (i < n)%nat -> INR i * deltat prm < T prm - deltat prm / 2) ->
  T prm - deltat prm / 2 <= INR n * deltat prm ->
  (forall i, (i < j)%nat -> INR i * deltat prm < T prm - deltat prm / 2) ->
  T prm - deltat prm / 2 <= INR j * deltat prm ->
  j = n.
Proof.
  intros Hn Hn' Hj Hj'.
  destruct (Nat.lt_trichotomy j n) as [Hlt|[Heq|Hgt]]; [|exact Heq|].
  - specialize (Hn j Hlt). lra.
  - specialize (Hj n Hgt). lra.
Qed.

(** C4: in exact arithmetic, with [T > 0] and [deltat > 0], [solve] starts
    at time 0 and its loop stops within [n] steps, [n] being the first
    number with [T - deltat/2 <= n deltat]: the condition [t < T - deltat/2]
    holds at [0, deltat, ..., (n-1) deltat] and fails at [n deltat], which
    lies in [[T - deltat/2, T + deltat/2)]; a run that returns has made
    exactly [n] timesteps and ends at [t = n deltat]; with [deltat = T],
    [n = 1].  The linear solver is any: the run ends by returning or by
    the solver's exception, and it returns when the solver converges. *)
Theorem solve_time_loop_terminates (s : FisherKolmogorov3D R) :
  0 < T prm -> 0 < deltat prm ->
  time (apply_initial_condition disc coef s) = 0 /\
  exists n : nat,
    (forall i, (i < n)%nat -> INR i * deltat prm < T prm - deltat prm / 2) /\
    T prm - deltat prm / 2 <= INR n * deltat prm /\
    INR n * deltat prm < T prm + deltat prm / 2 /\
    (deltat prm = T prm -> n = 1%nat) /\
    (forall fuel, (n < fuel)%nat -> solve disc coef prm la fuel s <> OutOfFuel) /\
    (forall fuel s', solve disc coef prm la fuel s = Done s' ->
       time s' = INR n * deltat prm /\
       exists evs, trace s' = evs ++ trace s /\ length (header_steps evs) = n) /\
    (cg_always_converges la ->
     forall fuel, (n < fuel)%nat -> exists s', solve disc coef prm la fuel s = Done s').
Proof.
  intros HT Hd. split; [reflexivity|].
  destruct (first_step_past Hd) as (n & Hlt & Hend).
  set (w0 := mkTimeLoop (apply_initial_condition disc coef s) O).
  assert (Ht0 : time (time_self w0) = 0) by reflexivity.
  assert (Hhalt : forall fuel, (n < fuel)%nat ->
            time_loop disc coef prm la fuel w0 <> OutOfFuel).
  { intros fuel Hf. apply (time_loop_halts n); [|exact Hf]. rewrite Ht0. lra. }
  assert (Hdone : forall fuel w', time_loop disc coef prm la fuel w0 = Done w' ->
            time (time_self w') = INR n * deltat prm /\
            exists evs, trace (time_self w') = evs ++ trace s /\
                        length (header_steps evs) = n).
  { intros fuel w' Hw. apply time_loop_steps in Hw.
    destruct Hw as (j & evs & Htr & Hlen & Ht & Hj & Hjend).
    rewrite Ht0, Rplus_0_l in Ht.
    assert (Hjn : j = n).
    { apply first_step_past_unique; auto.
      - intros i Hi. specialize (Hj i Hi). rewrite Ht0 in Hj. lra.
      - rewrite <- Ht. exact Hjend. }
    rewrite Hjn in Ht, Hlen. split; [exact Ht|].
    exists (evs ++ [EvOutput 0 (interpolate disc (u_0_value coef)); EvInitialCondition]).
    split.
    - rewrite Htr, <- app_assoc. reflexivity.
    - rewrite header_steps_app, length_app, Hlen. simpl. lia. }
  exists n. split; [exact Hlt|]. split; [exact Hend|]. split; [|split; [|split; [|split]]].
  - destruct n as [|n]; [simpl; lra|].
    specialize (Hlt n ltac:(lia)). rewrite S_INR. lra.
  - intros HdT. destruct n as [|[|n]]; auto.
    + exfalso. simpl in Hend. lra.
    + exfalso. specialize (Hlt 1%nat ltac:(lia)). simpl in Hlt. lra.
  - intros fuel Hf H. unfold solve in H. fold w0 in H.
    specialize (Hhalt fuel Hf).
    destruct (time_loop disc coef prm la fuel w0); simpl in H;
      [discriminate|discriminate|contradiction].
  - intros fuel s' H. unfold solve in H. fold w0 in H.
    apply bind_Done_inv in H. destruct H as (w' & Hw & Hs). injection Hs as <-.
    exact (Hdone fuel w' Hw).
  - intros Hcg fuel Hf.
    assert (Hrun : exists w', time_loop disc coef prm la fuel w0 = Done w').
    { apply (time_loop_returns n Hcg); [|exact Hf]. rewrite Ht0. lra. }
    destruct Hrun as (w' & Hw). exists (time_self w'). unfold solve. fold w0.
    rewrite Hw. reflexivity.
Qed.

End RealTimeLoop.

(** One step of size 1/2 short of [T = 1]: two timesteps. *)
Lemma solve_time_loop_terminates_witness :
  let disc := @two_tetrahedra R Num_R in
  let prm := sample_parameters_R 1 in
  let s := after_setup 5 in
  (0 < T prm)%R /\ (0 < deltat prm)%R /\
  exists n : nat,
    (T prm - deltat prm / 2 <= INR n * deltat prm < T prm + deltat prm / 2)%R /\
    (forall fuel, (n < fuel)%nat ->
       solve disc equilibrium_coefficients_R prm LinearAlgebra_R_diagonal fuel s <>
       OutOfFuel) /\
    (forall fuel, (n < fuel)%nat ->
       exists s', solve disc equilibrium_coefficients_R prm LinearAlgebra_R_diagonal
                    fuel s = Done s').
Proof.
  intros disc prm s.
  assert (HT : (0 < T prm)%R) by (simpl; lra).
  assert (Hd : (0 < deltat prm)%R) by (sample_real; lra).
  split; [exact HT|]. split; [exact Hd|].
  destruct (solve_time_loop_terminates disc equilibrium_coefficients_R prm
              LinearAlgebra_R_diagonal s HT Hd)
    as (_ & n & _ & Hlo & Hhi & _ & Hhalt & _ & Hret).
  exists n. split; [split; [exact Hlo|exact Hhi]|]. split; [exact Hhalt|].
  exact (Hret diagonal_solve_always_converges).
Defined.

(** ** The scatter-add as a sum over cells *)

Section RealScatter.

Variable disc : Discretization R.
Variable coef : Coefficients R.
Variable prm : Parameters R.
Local Open Scope R_scope.

Lemma vget_vadd_at (k a : nat) (x : R) (v : Vector R) :
  (a < length v)%nat ->
  vget (vadd_at k x v) a = vget v a + (if (k =? a)%nat then x else 0).
Proof.
  intros Ha. unfold vget, vadd_at. destruct (Nat.eqb_spec k a) as [->|Hk].
  - rewrite nth_update_at_same by exact Ha. reflexivity.
  - rewrite nth_update_at_other by exact Hk. simpl. ring.
Qed.

Lemma mget_madd_at (i j a b : nat) (x : R) (m : Matrix R) :
  (a < length m)%nat -> (b < length (nth a m []))%nat ->
  mget (madd_at i j x m) a b =
  mget m a b + (if ((i =? a)%nat && (j =? b)%nat)%bool then x else 0).
Proof.
  intros Ha Hb. unfold mget, madd_at. destruct (Nat.eqb_spec i a) as [->|Hi].
  - rewrite nth_update_at_same by exact Ha. cbn [andb].
    apply (vget_vadd_at j b x (nth a m []) Hb).
  - rewrite nth_update_at_other by exact Hi. simpl. ring.
Qed.

Lemma vzero_length (v v' : Vector R) : vzero v' = vzero v -> length v' = length v.
Proof.
  intros H. apply (f_equal (@length R)) in H. rewrite !length_vzero in H. exact H.
Qed.

Lemma mzero_length (m m' : Matrix R) : mzero m' = mzero m -> length m' = length m.
Proof.
  intros H. apply (f_equal (@length (list R))) in H. unfold mzero in H.
  rewrite !length_map in H. exact H.
Qed.

Lemma vector_add_sum (dofs : list nat) (cv v : Vector R) (a : nat) :
  (a < length v)%nat ->
  vget (vector_add dofs cv v) a = vget v a + dof_contribution dofs cv a.
Proof.
  intros Ha. unfold vector_add, dof_contribution.
  rewrite (@for_loop_fold (Vector R) R (fun v' => vzero v' = vzero v)
             (fun v' => vget v' a)
             (fun i acc => acc + (if (nth i dofs O =? a)%nat then vget cv i else 0))).
  - apply for_loop_sum. intros k acc _. reflexivity.
  - intros k v' _ Hv. rewrite vzero_vadd_at. exact Hv.
  - intros k v' _ Hv. apply vget_vadd_at. rewrite (vzero_length _ _ Hv). exact Ha.
  - reflexivity.
Qed.

Lemma matrix_add_sum (dofs : list nat) (cm m : Matrix R) (a b : nat) :
  (a < length m)%nat -> (b < length (nth a m []))%nat ->
  mget (matrix_add dofs cm m) a b = mget m a b + block_contribution dofs cm a b.
Proof.
  intros Ha Hb. unfold matrix_add, block_contribution.
  assert (Hin : forall i m1, mzero m1 = mzero m ->
            mzero (for_loop (length dofs)
                     (fun j m2 => madd_at (nth i dofs O) (nth j dofs O) (mget cm i j) m2)
                     m1) = mzero m).
  { intros i m1 H1.
    apply (@for_loop_inv (Matrix R) (fun m2 => mzero m2 = mzero m)); [|exact H1].
    intros k m2 _ H2. rewrite mzero_madd_at. exact H2. }
  rewrite (@for_loop_fold (Matrix R) R (fun m' => mzero m' = mzero m)
             (fun m' => mget m' a b)
             (fun i acc => acc + Rsum (length dofs) (fun j =>
                if ((nth i dofs O =? a)%nat && (nth j dofs O =? b)%nat)%bool
                then mget cm i j else 0))).
  - apply for_loop_sum. intros k acc _. reflexivity.
  - intros i m1 _ H1. apply Hin. exact H1.
  - intros i m1 _ H1.
    rewrite (@for_loop_fold (Matrix R) R (fun m' => mzero m' = mzero m)
               (fun m' => mget m' a b)
               (fun j acc => acc +
                  (if ((nth i dofs O =? a)%nat && (nth j dofs O =? b)%nat)%bool
                   then mget cm i j else 0))).
    + apply for_loop_sum. intros k acc _. reflexivity.
    + intros k m2 _ H2. rewrite mzero_madd_at. exact H2.
    + intros k m2 _ H2. apply mget_madd_at.
      * rewrite (mzero_length _ _ H2). exact Ha.
      * rewrite (mzero_row_length _ _ a H2). exact Hb.
    + exact H1.
  - reflexivity.
Qed.

Lemma Rsum_cells_filter (p : Cell R -> bool) (g : Cell R -> R) (cells : list (Cell R)) :
  Rsum_cells g (filter p cells) = Rsum_cells (fun c => if p c then g c else 0) cells.
Proof.
  induction cells as [|c cells IH]; simpl; [reflexivity|].
  destruct (p c); simpl; rewrite IH; ring.
Qed.

Lemma Rsum_cells_Permutation (g : Cell R -> R) (cells cells' : list (Cell R)) :
  Permutation cells cells' -> Rsum_cells g cells = Rsum_cells g cells'.
Proof.
  intros H. induction H; simpl.
  - reflexivity.
  - rewrite IHPermutation. reflexivity.
  - ring.
  - rewrite IHPermutation1. exact IHPermutation2.
Qed.

Lemma assemble_cells_residual_sum (cells : list (Cell R)) (f_time : R)
  (u u_old : Vector R) (glob : Matrix R * Vector R) (a : nat) :
  (a < length (snd glob))%nat ->
  vget (snd (fold_left (assemble_on_cell disc coef prm f_time u u_old) cells glob)) a =
  vget (snd glob) a +
  Rsum_cells (fun c => dof_contribution (get_dof_indices c)
                         (cell_residual_of disc coef prm c f_time u u_old) a)
    (filter (@is_locally_owned R) cells).
Proof.
  revert glob. induction cells as [|c cells IH]; intros glob Ha; simpl.
  - ring.
  - unfold assemble_on_cell at 2. destruct (is_locally_owned c); simpl.
    + rewrite IH.
      * cbn [snd]. rewrite vector_add_sum by exact Ha.
        unfold cell_residual_of. ring.
      * cbn [snd]. rewrite (vzero_length _ _ (vzero_vector_add _ _ _)). exact Ha.
    + apply IH. exact Ha.
Qed.

Lemma assemble_cells_jacobian_sum (cells : list (Cell R)) (f_time : R)
  (u u_old : Vector R) (glob : Matrix R * Vector R) (a b : nat) :
  (a < length (fst glob))%nat -> (b < length (nth a (fst glob) []))%nat ->
  mget (fst (fold_left (assemble_on_cell disc coef prm f_time u u_old) cells glob)) a b =
  mget (fst glob) a b +
  Rsum_cells (fun c => block_contribution (get_dof_indices c)
                         (cell_matrix_of disc coef prm c f_time u u_old) a b)
    (filter (@is_locally_owned R) cells).
Proof.
  revert glob. induction cells as [|c cells IH]; intros glob Ha Hb; simpl.
  - ring.
  - unfold assemble_on_cell at 2. destruct (is_locally_owned c); simpl.
    + rewrite IH.
      * cbn [fst]. rewrite matrix_add_sum by assumption.
        unfold cell_matrix_of. ring.
      * cbn [fst]. rewrite (mzero_length _ _ (mzero_matrix_add _ _ _)). exact Ha.
      * cbn [fst]. rewrite (mzero_row_length _ _ a (mzero_matrix_add _ _ _)). exact Hb.
    + apply IH; assumption.
Qed.

(** X11: in exact arithmetic every stored entry of the assembled residual
    and Jacobian is the sum, over the locally owned cells, of the entries of
    the element residual and element block whose local indices the cell maps
    to that global position; what the structures held before is gone. *)
Theorem assemble_system_is_sum (s : FisherKolmogorov3D R) (a b : nat) :
  (a < length (residual_vector s))%nat ->
  (a < length (jacobian_matrix s))%nat ->
  (b < length (nth a (jacobian_matrix s) []))%nat ->
  vget (residual_vector (assemble_system disc coef prm s)) a =
    Rsum_cells
      (fun c => dof_contribution (get_dof_indices c)
                  (cell_residual_of disc coef prm c (time s) (solution s)
                     (solution_old s)) a)
      (owned_cells disc) /\
  mget (jacobian_matrix (assemble_system disc coef prm s)) a b =
    Rsum_cells
      (fun c => block_contribution (get_dof_indices c)
                  (cell_matrix_of disc coef prm c (time s) (solution s)
                     (solution_old s)) a b)
      (owned_cells disc).
Proof.
  intros Hv Ha Hb. rewrite assemble_system_spec.
  cbn [jacobian_matrix residual_vector]. unfold assemble_cells, owned_cells. split.
  - rewrite assemble_cells_residual_sum.
    + cbn [snd]. rewrite vget_vzero. apply Rplus_0_l.
    + cbn [snd]. rewrite length_vzero. exact Hv.
  - rewrite assemble_cells_jacobian_sum.
    + cbn [fst]. rewrite mget_mzero. apply Rplus_0_l.
    + cbn [fst]. unfold mzero. rewrite length_map. exact Ha.
    + cbn [fst]. rewrite (mzero_row_length _ _ a (mzero_idem _)). exact Hb.
Qed.

Lemma assemble_cells_Permutation (cells cells' : list (Cell R)) (f_time : R)
  (u u_old : Vector R) (glob : Matrix R * Vector R) :
  Permutation cells cells' ->
  fold_left (assemble_on_cell disc coef prm f_time u u_old) cells glob =
  fold_left (assemble_on_cell disc coef prm f_time u u_old) cells' glob.
Proof.
  intros HP.
  pose proof (assemble_cells_shape (with_cells disc cells) coef prm f_time u u_old glob)
    as [Hm Hv].
  pose proof (assemble_cells_shape (with_cells disc cells') coef prm f_time u u_old glob)
    as [Hm' Hv'].
  rewrite assemble_cells_with_cells in Hm, Hv, Hm', Hv'.
  apply injective_projections.
  - apply nth_ext with (d := []) (d' := []).
    + rewrite (mzero_length _ _ Hm), (mzero_length _ _ Hm'). reflexivity.
    + intros i Hi. rewrite (mzero_length _ _ Hm) in Hi.
      apply nth_ext with (d := 0) (d' := 0).
      * rewrite (mzero_row_length _ _ i Hm), (mzero_row_length _ _ i Hm'). reflexivity.
      * intros j Hj. rewrite (mzero_row_length _ _ i Hm) in Hj.
        change (mget (fst (fold_left (assemble_on_cell disc coef prm f_time u u_old)
                             cells glob)) i j =
                mget (fst (fold_left (assemble_on_cell disc coef prm f_time u u_old)
                             cells' glob)) i j).
        rewrite !assemble_cells_jacobian_sum by assumption.
        rewrite !Rsum_cells_filter. f_equal.
        apply Rsum_cells_Permutation. exact HP.
  - apply nth_ext with (d := 0) (d' := 0).
    + rewrite (vzero_length _ _ Hv), (vzero_length _ _ Hv'). reflexivity.
    + intros i Hi. rewrite (vzero_length _ _ Hv) in Hi.
      change (vget (snd (fold_left (assemble_on_cell disc coef prm f_time u u_old)
                           cells glob)) i =
              vget (snd (fold_left (assemble_on_cell disc coef prm f_time u u_old)
                           cells' glob)) i).
      rewrite !assemble_cells_residual_sum by assumption.
      rewrite !Rsum_cells_filter. f_equal.
      apply Rsum_cells_Permutation. exact HP.
Qed.

(** X12: in exact arithmetic the assembled system does not depend on the
    order in which the loop visits the cells: two cell lists that are
    permutations of each other give the same object. *)
Theorem assemble_system_cell_order (cells cells' : list (Cell R))
  (s : FisherKolmogorov3D R) :
  Permutation cells cells' ->
  assemble_system (with_cells disc cells) coef prm s =
  assemble_system (with_cells disc cells') coef prm s.
Proof.
  intros HP. rewrite !assemble_system_spec. rewrite !assemble_cells_with_cells.
  rewrite (assemble_cells_Permutation cells cells' _ _ _ _ HP). reflexivity.
Qed.

End RealScatter.

(** * A linear solve that fails *)

Section LinearSolveFailure.

Context {F : Type} {num : Num F}.
Variable disc : Discretization F.
Variable coef : Coefficients F.
Variable prm : Parameters F.
Variable la : LinearAlgebra F.

Lemma newton_body_Throw (w : NewtonLoop F) (e : Exn) :
  newton_body disc coef prm la w = Throw e <-> cg_fails_at disc coef prm la w.
Proof.
  unfold cg_fails_at, newton_body, newton_update, solve_linear_system.
  destruct (newton_tolerance prm <? _)%num.
  - cbn [emit residual_vector jacobian_matrix delta_owned].
    destruct (cg_solve la _ _ _ _ _) as [[x k]|]; cbn [bind].
    + split; [discriminate|]. intros [_ H]. discriminate H.
    + destruct e. split; auto.
  - cbn [bind]. split; [discriminate|]. intros [H _]. discriminate H.
Qed.

Lemma while_loop_Throw {S : Type} (cond : S -> bool) (body : S -> Outcome S)
  (R : S -> S -> Prop) (e : Exn) :
  (forall s, R s s) ->
  (forall s s1 s', cond s = true -> body s = Done s1 -> R s1 s' -> R s s') ->
  forall fuel s, while_loop fuel cond body s = Throw e ->
    exists s', R s s' /\ cond s' = true /\ body s' = Throw e.
Proof.
  intros Hrefl Hstep. induction fuel as [|fuel IH]; intros s H; [discriminate|].
  cbn [while_loop] in H. destruct (cond s) eqn:Hc; [|discriminate].
  destruct (body s) as [s1| |] eqn:Hb; cbn [bind] in H.
  - destruct (IH s1 H) as (s' & Hr & Hc' & Hb'). exists s'. eauto.
  - injection H as ->. exists s. auto.
  - discriminate.
Qed.

Lemma newton_reaches_Throw (w w' : NewtonLoop F) (e : Exn) :
  newton_reaches disc coef prm la w w' ->
  newton_cond prm w' = true -> newton_body disc coef prm la w' = Throw e ->
  forall fuel, max_newton_iterations prm - n_iter w < fuel ->
    while_loop fuel (newton_cond prm) (newton_body disc coef prm la) w = Throw e.
Proof.
  induction 1 as [w|w w1 w' Hc Hb Hr IH]; intros Hc' Hb' fuel Hf.
  - destruct fuel as [|fuel]; [lia|]. cbn [while_loop]. rewrite Hc', Hb'. reflexivity.
  - destruct fuel as [|fuel]; [lia|]. cbn [while_loop]. rewrite Hc, Hb. cbn [bind].
    apply IH; auto.
    apply newton_body_frame in Hb. destruct Hb as (Hn & _).
    unfold newton_cond in Hc. apply andb_true_iff in Hc. destruct Hc as [Hlt _].
    apply Nat.ltb_lt in Hlt. lia.
Qed.

(** X13: [solve_newton] throws exactly when one of its passes finds the
    residual above the tolerance and the linear solve of that pass fails;
    nothing catches the exception: the timestep throws it, and so does the
    time loop, without the output of that step. *)
Theorem linear_solve_failure_aborts :
  (forall s e,
     solve_newton disc coef prm la s = Throw e <->
     exists w, newton_reaches disc coef prm la (newton_init prm s) w /\
               newton_cond prm w = true /\ cg_fails_at disc coef prm la w) /\
  (forall fuel tw e,
     time_cond prm tw = true ->
     solve_newton disc coef prm la (time_self (begin_time_step prm tw)) = Throw e ->
     time_body disc coef prm la tw = Throw e /\
     time_loop disc coef prm la (S fuel) tw = Throw e).
Proof.
  split.
  - intros s e. unfold solve_newton, newton_iterations. split.
    + intros H.
      destruct (while_loop (S (max_newton_iterations prm)) (newton_cond prm)
                  (newton_body disc coef prm la) (newton_init prm s))
        as [w'| e' |] eqn:Hw; cbn [bind] in H; try discriminate.
      apply (while_loop_Throw (newton_cond prm) (newton_body disc coef prm la)
               (newton_reaches disc coef prm la) e') in Hw.
      * destruct Hw as (w & Hr & Hc & Hb). exists w. split; [exact Hr|].
        split; [exact Hc|]. apply (newton_body_Throw w e'). exact Hb.
      * apply newton_reaches_refl.
      * intros w w1 w2 Hc Hb Hr. eapply newton_reaches_step; eassumption.
    + intros (w & Hr & Hc & Hfail).
      apply (newton_body_Throw w e) in Hfail.
      rewrite (newton_reaches_Throw _ _ e Hr Hc Hfail); [reflexivity|].
      simpl. lia.
  - intros fuel tw e Hc H.
    assert (Hb : time_body disc coef prm la tw = Throw e).
    { unfold time_body. rewrite H. reflexivity. }
    split; [exact Hb|].
    unfold time_loop. cbn [while_loop]. rewrite Hc, Hb. reflexivity.
Qed.

End LinearSolveFailure.

(** * ParameterReader.hpp *)

Section ParameterReaderFacts.

Import ParameterReader.
Local Open Scope string_scope.
Local Open Scope list_scope.

Lemma path_eqb_true (p q : list string) : path_eqb p q = true <-> p = q.
Proof.
  unfold path_eqb. destruct (list_eq_dec string_dec p q); split; congruence.
Qed.

Lemma path_eqb_refl (p : list string) : path_eqb p p = true.
Proof. apply path_eqb_true. reflexivity. Qed.

Lemma path_eqb_false (p q : list string) : p <> q -> path_eqb p q = false.
Proof.
  intros H. destruct (path_eqb p q) eqn:E; [|reflexivity].
  apply path_eqb_true in E. contradiction.
Qed.

Lemma get_put_same (key : list string) (e : Entry) (l : list (list string * Entry)) :
  get key (put key e l) = Some e.
Proof.
  induction l as [|[k e'] l IH]; simpl.
  - rewrite path_eqb_refl. reflexivity.
  - destruct (path_eqb k key) eqn:E; simpl; rewrite E; [reflexivity|exact IH].
Qed.

Lemma get_put_other (key key' : list string) (e : Entry)
  (l : list (list string * Entry)) :
  key <> key' -> get key' (put key e l) = get key' l.
Proof.
  intros H. induction l as [|[k e'] l IH]; simpl.
  - rewrite path_eqb_false by exact H. reflexivity.
  - destruct (path_eqb k key) eqn:E; simpl.
    + apply path_eqb_true in E. subst k. rewrite path_eqb_false by exact H. reflexivity.
    + destruct (path_eqb k key'); [reflexivity|exact IH].
Qed.

Lemma leave_enter_subsection (subsection : string) (p : list string)
  (es : list (list string * Entry)) :
  leave_subsection (mkParameterHandler (p ++ [subsection]) es) =
  Some (mkParameterHandler p es).
Proof.
  unfold leave_subsection. cbn [subsection_path entries].
  rewrite removelast_last. destruct (p ++ [subsection]) eqn:E; [|reflexivity].
  destruct p; discriminate.
Qed.

Lemma key_of_section (p : list string) (subsection entry : string) :
  (p ++ [subsection]) ++ [entry] = p ++ [subsection; entry].
Proof. rewrite <- app_assoc. reflexivity. Qed.

Lemma key_section (p : list string) (s s' e e' : string) :
  p ++ [s; e] = p ++ [s'; e'] -> s = s' /\ e = e'.
Proof. intros H. apply app_inv_head in H. injection H as -> ->. auto. Qed.

Lemma declare_parameters_entries (p : list string) (es : list (list string * Entry)) :
  exists es',
    declare_parameters (mkParameterHandler p es) = Some (mkParameterHandler p es') /\
    es' =
    put (p ++ ["Solver parameters"; "CG tolerance factor"])
      (mkEntry "1e-6" (Double 0 max_double_value)
         "Tolerance factor for CG solver (multiplied by residual norm)")
   (put (p ++ ["Solver parameters"; "Max CG iterations"])
      (mkEntry "1000" (Integer 1 max_int_value) "Maximum number of CG iterations")
   (put (p ++ ["Solver parameters"; "Newton tolerance"])
      (mkEntry "1e-6" (Double 0 max_double_value) "Tolerance for Newton iterations")
   (put (p ++ ["Solver parameters"; "Max Newton iterations"])
      (mkEntry "1000" (Integer 1 max_int_value) "Maximum number of Newton iterations")
   (put (p ++ ["Time stepping parameters"; "Theta"])
      (mkEntry "1.0" (Double 0 1)
         "Theta value for the time-stepping method (0=explicit, 1=implicit)")
   (put (p ++ ["Time stepping parameters"; "deltat"])
      (mkEntry "0.1" (Double 0 max_double_value) "Time step size")
   (put (p ++ ["Time stepping parameters"; "T"])
      (mkEntry "1.0" (Double 0 max_double_value) "Final simulation time")
   (put (p ++ ["Physical constants"; "Alpha coefficient"])
      (mkEntry "0.1" (Double 0 max_double_value) "Alpha coefficient for reaction term")
   (put (p ++ ["Physical constants"; "Daxn"])
      (mkEntry "10.0" (Double 0 max_double_value) "Daxn coefficient for diffusion term")
   (put (p ++ ["Physical constants"; "Dext"])
      (mkEntry "1.0" (Double 0 max_double_value) "Dext coefficient for diffusion term")
   (put (p ++ ["Mesh & geometry parameters"; "Degree"])
      (mkEntry "1" (Integer 1 max_int_value) "Polynomial degree of finite element")
      es)))))))))).
Proof.
  eexists. split; [|reflexivity].
  unfold declare_parameters, declare_entry, enter_subsection.
  cbn [subsection_path entries].
  rewrite leave_enter_subsection. cbn [and_then subsection_path entries].
  rewrite leave_enter_subsection. cbn [and_then subsection_path entries].
  rewrite leave_enter_subsection. cbn [and_then subsection_path entries].
  rewrite leave_enter_subsection.
  rewrite !key_of_section. reflexivity.
Qed.


Ltac other_key :=
  let Hk := fresh "Hk" in
  intros Hk; apply key_section in Hk; destruct Hk as [? ?]; congruence.

Ltac find_entry :=
  cbn [entries];
  repeat first [ rewrite get_put_same; reflexivity
               | rewrite get_put_other by other_key ].

(** X14: from any handler, in whatever subsection it is and whatever has
    been declared, [declare_parameters] never leaves a subsection it did not
    enter and ends in the subsection it started in, so [read_parameters]
    parses the file from there; every entry other than the eleven it
    declares keeps its declaration, among them [Mesh file], whose
    declaration is commented out. *)
Theorem declare_parameters_balanced
  (parse_input : string -> ParameterHandler -> option ParameterHandler)
  (parameter_file : string) (prm : ParameterHandler) :
  exists prm',
    declare_parameters prm = Some prm' /\
    read_parameters parse_input parameter_file prm = parse_input parameter_file prm' /\
    subsection_path prm' = subsection_path prm /\
    (forall key,
       (forall subsection entry, In (subsection, entry) declared_names ->
          key <> subsection_path prm ++ [subsection; entry]) ->
       get key (entries prm') = get key (entries prm)) /\
    declared "Mesh & geometry parameters" "Mesh file" prm' =
    declared "Mesh & geometry parameters" "Mesh file" prm.
Proof.
  destruct prm as [p es].
  destruct (declare_parameters_entries p es) as (es' & Hd & Hes).
  exists (mkParameterHandler p es').
  assert (Hframe : forall key,
            (forall subsection entry, In (subsection, entry) declared_names ->
               key <> p ++ [subsection; entry]) ->
            get key es' = get key es).
  { intros key Hkey. rewrite Hes.
    repeat (rewrite get_put_other;
            [|apply not_eq_sym; apply Hkey; unfold declared_names; simpl; tauto]).
    reflexivity. }
  split; [exact Hd|]. split; [unfold read_parameters; rewrite Hd; reflexivity|].
  split; [reflexivity|]. split; [exact Hframe|].
  unfold declared. cbn [subsection_path entries]. apply Hframe.
  intros subsection entry Hin Hk. apply key_section in Hk. destruct Hk as [Hs He].
  unfold declared_names in Hin. simpl in Hin.
  repeat (destruct Hin as [Hin|Hin]; [congruence|]). exact Hin.
Qed.

(** X15: whatever the handler held before, after [declare_parameters] each
    of the eleven entries is found under the current subsection with the
    pattern of the source: the physical constants, [T], [deltat] and the two
    tolerances accept exactly the doubles from 0 up, 0 included; [Theta]
    exactly those from 0 to 1; [Degree] and the two iteration limits exactly
    the integers from 1 up, so 0 is refused. *)
Theorem declared_patterns (prm : ParameterHandler) :
  exists prm',
    declare_parameters prm = Some prm' /\
    (forall subsection entry, In (subsection, entry) nonnegative_doubles ->
       exists e, declared subsection entry prm' = Some e /\
         (forall d, match_double (pattern e) d =
                    PrimFloat.leb 0 d && PrimFloat.leb d max_double_value) /\
         match_double (pattern e) 0 = true) /\
    (exists e, declared "Time stepping parameters" "Theta" prm' = Some e /\
       forall d, match_double (pattern e) d = PrimFloat.leb 0 d && PrimFloat.leb d 1) /\
    (forall subsection entry, In (subsection, entry) positive_integers ->
       exists e, declared subsection entry prm' = Some e /\
         (forall i, match_int (pattern e) i = (1 <=? i)%Z && (i <=? max_int_value)%Z) /\
         match_int (pattern e) 0 = false).
Proof.
  destruct prm as [p es].
  destruct (declare_parameters_entries p es) as (es' & Hd & Hes).
  exists (mkParameterHandler p es'). split; [exact Hd|].
  unfold declared. cbn [subsection_path entries]. rewrite Hes. clear Hd Hes.
  split; [|split].
  - intros subsection entry Hin. unfold nonnegative_doubles in Hin. simpl in Hin.
    repeat (destruct Hin as [Hin|Hin];
            [injection Hin as <- <-; eexists; split; [find_entry|];
             split; [intros d|]; reflexivity|]).
    contradiction.
  - eexists. split; [find_entry|]. intros d. reflexivity.
  - intros subsection entry Hin. unfold positive_integers in Hin. simpl in Hin.
    repeat (destruct Hin as [Hin|Hin];
            [injection Hin as <- <-; eexists; split; [find_entry|];
             split; [intros i|]; reflexivity|]).
    contradiction.
Qed.

End ParameterReaderFacts.

(** * Sample inputs of the further properties *)

Lemma forced_newton_float_returns :
  newton_iterations two_tetrahedra forced_coefficients_float forced_parameters_float
    LinearAlgebra_float forced_step_float = Done forced_newton_end_float.
Proof. vm_compute. reflexivity. Qed.

(** The Newton solve of the run with forcing, in binary64: five assemblies
    and four linear solves under a cap of eight. *)
Lemma solve_newton_bounded_witness :
  let s := forced_step_float in
  let s' := newton_self forced_newton_end_float in
  solve_newton two_tetrahedra forced_coefficients_float forced_parameters_float
    LinearAlgebra_float s = Done s' /\
  exists evs,
    trace s' = evs ++ trace s /\
    Forall (@newton_event PrimFloat.float) evs /\
    newton_reports evs <= max_newton_iterations forced_parameters_float /\
    cg_solves evs <= newton_reports evs.
Proof.
  intros s s'.
  assert (Hrun :
    solve_newton two_tetrahedra forced_coefficients_float forced_parameters_float
      LinearAlgebra_float s = Done s').
  { unfold solve_newton, s. rewrite forced_newton_float_returns. reflexivity. }
  split; [exact Hrun|].
  exact (@solve_newton_bounded PrimFloat.float Num_float two_tetrahedra
           forced_coefficients_float forced_parameters_float LinearAlgebra_float
           s s' Hrun).
Defined.

(** The same solve stops after five passes, below the cap of eight. *)
Lemma solve_newton_converged_witness :
  let w' := forced_newton_end_float in
  0 < n_iter w' /\ n_iter w' < max_newton_iterations forced_parameters_float /\
  (newton_tolerance forced_parameters_float <?
   l2_norm LinearAlgebra_float (residual_vector (newton_self w')))%num = false.
Proof.
  intros w'.
  assert (Hpos : 0 < n_iter w') by (vm_compute; lia).
  assert (Hcap : n_iter w' < max_newton_iterations forced_parameters_float)
    by (vm_compute; lia).
  split; [exact Hpos|]. split; [exact Hcap|].
  exact (proj1 (proj2 (@solve_newton_converged PrimFloat.float Num_float two_tetrahedra
                         forced_coefficients_float forced_parameters_float
                         LinearAlgebra_float forced_step_float w'
                         forced_newton_float_returns Hpos)) Hcap).
Defined.


(** The step size zero with T = 1, on the two tetrahedra. *)
Lemma solve_never_returns_witness :
  (deltat zero_step_parameters_R <= 0)%R /\
  (0 < T zero_step_parameters_R - deltat zero_step_parameters_R / 2)%R /\
  forall fuel s',
    solve two_tetrahedra equilibrium_coefficients_R zero_step_parameters_R
      LinearAlgebra_R_diagonal fuel (after_setup 5) <> Done s'.
Proof.
  assert (Hd : (deltat zero_step_parameters_R <= 0)%R) by (simpl; lra).
  assert (HT : (0 < T zero_step_parameters_R - deltat zero_step_parameters_R / 2)%R)
    by (simpl; lra).
  split; [exact Hd|]. split; [exact HT|].
  exact (proj1 (solve_never_returns two_tetrahedra equilibrium_coefficients_R
                  zero_step_parameters_R LinearAlgebra_R_diagonal (after_setup 5)
                  Hd HT)).
Defined.

(** The entries at DoF 1 and at the pair (1, 4) on the two tetrahedra. *)
Lemma assemble_system_is_sum_witness :
  let disc := @two_tetrahedra R Num_R in
  let prm := sample_parameters_R 1 in
  let s := after_setup 5 in
  (1 < length (residual_vector s)) /\
  vget (residual_vector (assemble_system disc equilibrium_coefficients_R prm s)) 1 =
    Rsum_cells
      (fun c => dof_contribution (get_dof_indices c)
                  (cell_residual_of disc equilibrium_coefficients_R prm c (time s)
                     (solution s) (solution_old s)) 1)
      (owned_cells disc).
Proof.
  intros disc prm s.
  assert (Hv : 1 < length (residual_vector s)) by (simpl; lia).
  assert (Ha : 1 < length (jacobian_matrix s)) by (simpl; lia).
  assert (Hb : 4 < length (nth 1 (jacobian_matrix s) [])) by (simpl; lia).
  split; [exact Hv|].
  exact (proj1 (assemble_system_is_sum disc equilibrium_coefficients_R prm s 1 4
                  Hv Ha Hb)).
Defined.

(** The two tetrahedra visited in either order. *)
Lemma assemble_system_cell_order_witness :
  let disc := @two_tetrahedra R Num_R in
  let prm := sample_parameters_R 1 in
  Permutation [@cell_right R Num_R; cell_left] [cell_left; cell_right] /\
  assemble_system (with_cells disc [cell_right; cell_left]) equilibrium_coefficients_R prm
    (after_setup 5) =
  assemble_system (with_cells disc [cell_left; cell_right]) equilibrium_coefficients_R prm
    (after_setup 5).
Proof.
  intros disc prm.
  assert (HP : Permutation [@cell_right R Num_R; cell_left] [cell_left; cell_right])
    by apply perm_swap.
  split; [exact HP|].
  exact (assemble_system_cell_order disc equilibrium_coefficients_R prm
           [cell_right; cell_left] [cell_left; cell_right] (after_setup 5) HP).
Defined.

(** The run with forcing and a solver that never converges: the first
    timestep throws. *)
Lemma linear_solve_failure_aborts_witness :
  time_cond forced_parameters_float capped_start_float = true /\
  solve_newton two_tetrahedra forced_coefficients_float forced_parameters_float
    LinearAlgebra_float_failing forced_step_float = Throw NoConvergence /\
  time_loop two_tetrahedra forced_coefficients_float forced_parameters_float
    LinearAlgebra_float_failing 3 capped_start_float = Throw NoConvergence.
Proof.
  assert (Hc : time_cond forced_parameters_float capped_start_float = true).
  { vm_compute. reflexivity. }
  assert (Hn :
    solve_newton two_tetrahedra forced_coefficients_float forced_parameters_float
      LinearAlgebra_float_failing
      (time_self (begin_time_step forced_parameters_float capped_start_float)) =
    Throw NoConvergence).
  { vm_compute. reflexivity. }
  split; [exact Hc|]. split; [exact Hn|].
  exact (proj2 (proj2 (@linear_solve_failure_aborts PrimFloat.float Num_float
                         two_tetrahedra forced_coefficients_float
                         forced_parameters_float LinearAlgebra_float_failing)
                  2 capped_start_float NoConvergence Hc Hn)).
Defined.

(** On the two tetrahedra no cell holds both DoF 1 and DoF 4. *)
Lemma assemble_system_sparsity_witness :
  ~ couples (@two_tetrahedra PrimFloat.float Num_float) 1 4 /\
  mget (jacobian_matrix
          (assemble_system two_tetrahedra forced_coefficients_float
             forced_parameters_float forced_step_float)) 1 4 = 0%float.
Proof.
  assert (H : ~ couples (@two_tetrahedra PrimFloat.float Num_float) 1 4).
  { intros (c & Hin & _ & Ha & Hb). simpl in Hin.
    destruct Hin as [<-|[<-|[]]]; simpl in Ha, Hb; intuition discriminate. }
  split; [exact H|].
  exact (proj1 (@assemble_system_sparsity PrimFloat.float Num_float two_tetrahedra
                  forced_coefficients_float forced_parameters_float forced_step_float
                  1 4) H).
Defined.
